(** * Backdoor trigger transforms of cupbearer (data/backdoors.py)

    A shallow embedding of the three trigger transforms
    [CornerPixelBackdoor], [NoiseBackdoor] and [WanetBackdoor], and the
    properties of them that the specification states.

    Conventions of the embedding.
    - A numpy array or torch tensor is an element type, a shape and the
      elements in row-major order ([ndarray]).  Elements are rationals and
      the arithmetic on elements is exact: the properties of element values
      below (which element is written, the min-max rescale of the warping
      field) are stated for exact arithmetic.
    - Every comparison that selects a branch or raises is made as the
      source makes it, on rounded values: the sum of two Python floats is
      rounded to binary64 ([float64]), and a float32 tensor is compared with
      a Python float after the float is rounded to binary32 ([float32]).
      Floats are finite: infinities and NaN are not represented.
    - Arrays are Python objects: they live in a store ([gmap nat ndarray])
      and are passed by reference, so that in-place assignment
      ([img[0, 0] = 1]) is visible to every holder of the reference.  The
      store has one entry per array object; two numpy arrays that share a
      buffer (an array and a view of it) are outside the model, and nothing
      below is stated about what an assignment does to other arrays.
    - A Python computation is a function of the store that returns either an
      exception or a value, together with the store it leaves ([pyM]).
    - Random draws ([torch.rand], [np.random.normal]) are arguments of the
      call: a property stated for every draw holds whatever the generator
      does. *)

From Stdlib Require Import QArith Qpower Qminmax Qabs Qround Lqa ZArith List String Lia.
From stdpp Require Import gmap strings list.

Local Open Scope string_scope.
Local Open Scope list_scope.
Local Open Scope nat_scope.

(** ** Python values: exceptions, arrays, the store *)

Inductive exn : Type :=
| AssertionError (msg : string)
| IndexError
| TypeError
| ValueError
| RuntimeError.

(** The element types that occur: bytes (raw images), [torch.float32] and
    [torch.float64] / [np.float64], under the names of torch's scalar
    types. *)
Inductive scalar_type : Type := Byte | Float | Double.

(** [dtype] is [a.dtype], [shape] is [a.shape] / [t.size()], [data] the
    elements in row-major (C-contiguous) order. *)
Record ndarray : Type := Build_ndarray {
  dtype : scalar_type;
  shape : list nat;
  data : list Q
}.

(** [np.array(data).reshape(shape)] for a list of Python floats: numpy's
    default element type is float64. *)
Definition mk_ndarray (s : list nat) (d : list Q) : ndarray :=
  {| dtype := Double; shape := s; data := d |}.

(** The element type of [a + b] when the two differ: the wider float. *)
Definition promote (d1 d2 : scalar_type) : scalar_type :=
  match d1, d2 with
  | Double, _ | _, Double => Double
  | Float, _ | _, Float => Float
  | Byte, Byte => Byte
  end.

(** Number of elements of an array of shape [s]. *)
Definition numel (s : list nat) : nat := foldr Nat.mul 1 s.

(** The arrays the libraries build: as many elements as the shape says. *)
Definition wf (a : ndarray) : Prop := length (data a) = numel (shape a).

(** A Python computation over the store of arrays.  The store survives an
    exception: what was written before the raise stays written. *)
Definition pyM (A : Type) : Type :=
  gmap nat ndarray -> (exn + A) * gmap nat ndarray.

#[global] Instance py_ret : MRet pyM := fun A x h => (inr x, h).

#[global] Instance py_bind : MBind pyM := fun A B f m h =>
  match m h with
  | (inl e, h') => (inl e, h')
  | (inr x, h') => f x h'
  end.

Definition raise {A : Type} (e : exn) : pyM A := fun h => (inl e, h).

(** A library call that returns or raises and does not touch the store. *)
Definition lift {A : Type} (x : exn + A) : pyM A :=
  match x with
  | inl e => raise e
  | inr a => mret a
  end.

(** [assert b, msg] *)
Definition py_assert (b : bool) (msg : string) : pyM unit :=
  if b then mret tt else raise (AssertionError msg).

(** A new array object, at an address no live object has. *)
Definition alloc (a : ndarray) : pyM nat := fun h =>
  let l := fresh (dom h) in (inr l, <[l := a]> h).

(** Reading through a reference.  Python references never dangle; the
    [None] case is there to keep the function total. *)
Definition load (l : nat) : pyM ndarray := fun h =>
  match h !! l with
  | Some a => (inr a, h)
  | None => (inl RuntimeError, h)
  end.

(** In-place update of the object at [l]. *)
Definition store (l : nat) (a : ndarray) : pyM unit := fun h =>
  (inr tt, <[l := a]> h).

(** [frame m]: whatever [m] does, returning or raising, every object that
    was in the store is still there, unchanged. *)
Definition frame {A : Type} (m : pyM A) : Prop :=
  forall h l a, h !! l = Some a -> snd (m h) !! l = Some a.

(** [heap_pure m]: [m] leaves the store exactly as it found it. *)
Definition heap_pure {A : Type} (m : pyM A) : Prop :=
  forall h, snd (m h) = h.

(** [raises_clean m]: when [m] raises, the store is as it was before. *)
Definition raises_clean {A : Type} (m : pyM A) : Prop :=
  forall h e h', m h = (inl e, h') -> h' = h.

(** ** Scalars *)

Definition Qlt_bool (x y : Q) : bool := negb (Qle_bool y x).
Definition Qgt_bool (x y : Q) : bool := Qlt_bool y x.

(** The range of [torch.rand]: the half-open interval [[0, 1)]. *)
Definition unit_draw (r : Q) : Prop := (0 <= r)%Q /\ (r < 1)%Q.

(** ** Floating-point rounding

    IEEE 754 round-to-nearest, ties to even, of a rational to a binary
    format with [prec] significant bits and least exponent [emin] (the
    exponent of the smallest subnormal).  The formats are not bounded
    above: what is rounded below, probabilities and sums of two of them,
    is far from the largest finite float. *)

Definition pow2 (e : Z) : Q := (2 ^ e)%Q.

(** [floor (log2 x)] of a positive rational. *)
Definition ilog2 (x : Q) : Z :=
  let e0 := (Z.log2 (Qnum x) - Z.log2 (Zpos (Qden x)))%Z in
  if Qle_bool (pow2 e0) x then e0 else (e0 - 1)%Z.

(** The integer nearest to [m], the even one of the two when [m] is half
    way. *)
Definition rne (m : Q) : Z :=
  let f := Qfloor m in
  match Qcompare (m - inject_Z f) (1 # 2) with
  | Lt => f
  | Gt => (f + 1)%Z
  | Eq => if Z.even f then f else (f + 1)%Z
  end.

(** Rounding to a multiple of [2 ^ e]. *)
Definition round_at (e : Z) (x : Q) : Q :=
  (inject_Z (rne (x / pow2 e)) * pow2 e)%Q.

(** The exponent of the last place of a positive [x]. *)
Definition fexp (prec emin : Z) (x : Q) : Z := Z.max (ilog2 x - prec + 1) emin.

Definition fl_pos (prec emin : Z) (x : Q) : Q := round_at (fexp prec emin x) x.

Definition fl (prec emin : Z) (x : Q) : Q :=
  match Qcompare x 0 with
  | Eq => 0%Q
  | Gt => fl_pos prec emin x
  | Lt => (- fl_pos prec emin (- x))%Q
  end.

(** binary32, the element type of [torch.rand], and binary64, the Python
    float. *)
Definition float32 : Q -> Q := fl 24 (-149).
Definition float64 : Q -> Q := fl 53 (-1074).

(** ** numpy indexing *)

(** A Python index [i] on an axis of [n] entries: negative indices count
    from the end, anything outside [-n .. n-1] is an [IndexError]. *)
Definition norm_index (i : Z) (n : nat) : option nat :=
  if ((0 <=? i) && (i <? Z.of_nat n))%Z then Some (Z.to_nat i)
  else if ((- Z.of_nat n <=? i) && (i <? 0))%Z then Some (Z.to_nat (Z.of_nat n + i))
  else None.

(** [a[i, j] = v] for a scalar [v]: the two leading axes are indexed, the
    scalar is broadcast over whatever axes remain (the channels of a
    channel-last image; nothing for a two-dimensional one). *)
Definition setitem2 (a : ndarray) (i j : Z) (v : Q) : exn + ndarray :=
  match shape a with
  | h :: w :: rest =>
      match norm_index i h, norm_index j w with
      | Some i', Some j' =>
          let bs := numel rest in
          let off := (i' * w + j') * bs in
          inr {| dtype := dtype a; shape := shape a;
                 data := take off (data a) ++ replicate bs v
                           ++ drop (off + bs) (data a) |}
      | _, _ => inl IndexError
      end
  | _ => inl IndexError
  end.

(** The same assignment through a reference: the object itself changes. *)
Definition ndarray_setitem2 (l : nat) (i j : Z) (v : Q) : pyM unit :=
  a ← load l;
  match setitem2 a i j v with
  | inl e => raise e
  | inr a' => store l a'
  end.

(** [a[i, j, c]] of a channel-last image of shape [(h, w) ++ rest], where
    [c] runs over the [numel rest] entries of the pixel. *)
Definition getpixel (a : ndarray) (i j c : nat) : option Q :=
  match shape a with
  | h :: w :: rest => data a !! ((i * w + j) * numel rest + c)
  | _ => None
  end.

(** ** CornerPixelBackdoor *)

Record CornerPixelBackdoor : Type := mk_CornerPixelBackdoor {
  cp_p_backdoor : Q;
  cp_corner : string;
  cp_target_class : Z
}.

(** Modelled from the spec: [Transform.__post_init__], the initialiser of
    the base class in [._shared], which is not among the sources.  The
    specification gives construction no effect besides the validation of
    the hyperparameters, so it returns normally and touches nothing. *)
Definition Transform_post_init : pyM unit := mret tt.

Definition valid_corners : list string :=
  ["top-left"; "top-right"; "bottom-left"; "bottom-right"].

Definition CornerPixelBackdoor_post_init (self : CornerPixelBackdoor) : pyM unit :=
  Transform_post_init;;
  py_assert (Qle_bool 0 (cp_p_backdoor self) && Qle_bool (cp_p_backdoor self) 1)
            "Probability must be between 0 and 1";;
  py_assert (bool_decide (cp_corner self ∈ valid_corners))
            "Invalid corner specified".

(** The dataclass constructor: fields, then [__post_init__]. *)
Definition CornerPixelBackdoor_new (p : Q) (corner : string) (target : Z)
  : pyM CornerPixelBackdoor :=
  let self := mk_CornerPixelBackdoor p corner target in
  CornerPixelBackdoor_post_init self;; mret self.

(** [__call__].  [sample] is the pair of the image reference and the label,
    [r] the value of [torch.rand(1)], a float32 tensor.  The test
    [torch.rand(1) > self.p_backdoor] is made in float32, the Python float
    rounded to it ([float32 r] is [r] for the values [torch.rand] returns). *)
Definition CornerPixelBackdoor_call (self : CornerPixelBackdoor)
    (sample : nat * Z) (r : Q) : pyM (nat * Z) :=
  let '(img, target) := sample in
  if Qgt_bool (float32 r) (float32 (cp_p_backdoor self)) then mret (img, target)
  else
    (if String.eqb (cp_corner self) "top-left" then ndarray_setitem2 img 0 0 1
     else if String.eqb (cp_corner self) "top-right" then ndarray_setitem2 img (-1) 0 1
     else if String.eqb (cp_corner self) "bottom-left" then ndarray_setitem2 img 0 (-1) 1
     else if String.eqb (cp_corner self) "bottom-right" then ndarray_setitem2 img (-1) (-1) 1
     else mret tt);;
    mret (img, cp_target_class self).

(** The pair of indices [__call__] assigns through, per corner name. *)
Definition corner_index (corner : string) : option (Z * Z) :=
  if String.eqb corner "top-left" then Some (0, 0)%Z
  else if String.eqb corner "top-right" then Some (-1, 0)%Z
  else if String.eqb corner "bottom-left" then Some (0, -1)%Z
  else if String.eqb corner "bottom-right" then Some (-1, -1)%Z
  else None.

(** The corner a name denotes in an image stored rows first, channels last
    (shape [(H, W)] or [(H, W, C)]): "top" is row [0], "bottom" row [H - 1],
    "left" column [0], "right" column [W - 1].  This definition follows the
    names, not the code; it is what [corner_index] is compared with. *)
Definition named_corner (corner : string) (H W : nat) : option (nat * nat) :=
  if String.eqb corner "top-left" then Some (0, 0)
  else if String.eqb corner "top-right" then Some (0, W - 1)
  else if String.eqb corner "bottom-left" then Some (H - 1, 0)
  else if String.eqb corner "bottom-right" then Some (H - 1, W - 1)
  else None.

(** ** Elementwise tensor arithmetic *)

Definition tmap (f : Q -> Q) (a : ndarray) : ndarray :=
  {| dtype := dtype a; shape := shape a; data := map f (data a) |}.

(** [a + b] for two arrays of the same shape. *)
Definition ndarray_add (a b : ndarray) : ndarray :=
  {| dtype := promote (dtype a) (dtype b); shape := shape a;
     data := zip_with Qplus (data a) (data b) |}.

(** A float32 tensor of the given shape filled from a stream of draws:
    what [torch.rand] of that size and [torch.rand_like(t)] return, [u k]
    being the [k]-th element drawn. *)
Definition random_array (s : list nat) (u : nat -> Q) : ndarray :=
  {| dtype := Float; shape := s; data := map u (seq 0 (numel s)) |}.

(** [np.random.normal(loc, scale, size)]: a negative [scale] is refused
    with [ValueError]; otherwise element [k] of the float64 array returned
    is [loc + scale * z k], [z k] being the [k]-th standard normal draw. *)
Definition np_random_normal (loc scale : Q) (size : list nat) (z : nat -> Q)
  : exn + ndarray :=
  if Qlt_bool scale 0 then inl ValueError
  else inr {| dtype := Double; shape := size;
              data := map (fun k => (loc + scale * z k)%Q) (seq 0 (numel size)) |}.

Definition Qsum (l : list Q) : Q := foldr Qplus 0%Q l.

(** [t.mean()].  On an empty tensor torch yields [nan]; here the quotient
    by zero is [0].  No exception is raised either way. *)
Definition tensor_mean (t : ndarray) : Q :=
  (Qsum (data t) / inject_Z (Z.of_nat (length (data t))))%Q.

(** ** NoiseBackdoor *)

Record NoiseBackdoor : Type := mk_NoiseBackdoor {
  nb_p_backdoor : Q;
  nb_std : Q;
  nb_target_class : Z
}.

Definition NoiseBackdoor_post_init (self : NoiseBackdoor) : pyM unit :=
  Transform_post_init;;
  py_assert (Qle_bool 0 (nb_p_backdoor self) && Qle_bool (nb_p_backdoor self) 1)
            "Probability must be between 0 and 1".

Definition NoiseBackdoor_new (p std : Q) (target : Z) : pyM NoiseBackdoor :=
  let self := mk_NoiseBackdoor p std target in
  NoiseBackdoor_post_init self;; mret self.

(** [__call__].  [r] is the value of [torch.rand(1)], compared in float32
    as in [CornerPixelBackdoor_call]; [z] are the standard normal draws
    behind [np.random.normal(0, self.std, img.shape)], element by element. *)
Definition NoiseBackdoor_call (self : NoiseBackdoor)
    (sample : nat * Z) (r : Q) (z : nat -> Q) : pyM (nat * Z) :=
  let '(img, target) := sample in
  if Qgt_bool (float32 r) (float32 (nb_p_backdoor self)) then mret (img, target)
  else
    a ← load img;
    noise ← lift (np_random_normal 0 (nb_std self) (shape a) z);
    img' ← alloc (ndarray_add a noise);
    mret (img', nb_target_class self).

(** ** WanetBackdoor *)

(** The two functions of [torch.nn.functional] the transform calls, with
    the keyword arguments fixed as in the source:
    [F_interpolate input py px] is
    [F.interpolate(input=input, size=(py, px), mode='bicubic')] and
    [F_grid_sample input grid] is
    [F.grid_sample(input, grid, mode='bilinear', padding_mode='border')].
    They are library code: the transform is modelled over any
    implementation of them. *)
Class TorchFunctional : Type := {
  F_interpolate : ndarray -> nat -> nat -> exn + ndarray;
  F_grid_sample : ndarray -> ndarray -> exn + ndarray
}.

(** What the library documents of the two functions.  On float32 tensors
    interpolation keeps batch and channels and resizes the two spatial
    axes, and sampling an input of shape [(N, C, H_in, W_in)] on a grid of
    shape [(N, H_out, W_out, 2)] gives [(N, C, H_out, W_out)].  A tensor
    that interpolation returns has the element type of its input.
    Sampling checks its arguments: a grid whose batch size or whose
    element type is not the input's is refused with a [RuntimeError]. *)
Record TorchShapes (T : TorchFunctional) : Prop := {
  interpolate_shape : forall t n c h w py px,
    dtype t = Float ->
    shape t = [n; c; h; w] -> wf t -> 0 < h -> 0 < w -> 0 < py -> 0 < px ->
    exists t', F_interpolate t py px = inr t' /\
               shape t' = [n; c; py; px] /\ wf t';
  interpolate_dtype : forall t py px t',
    F_interpolate t py px = inr t' -> dtype t' = dtype t;
  grid_sample_shape : forall t g n c h w ho wo,
    dtype t = Float -> dtype g = Float ->
    shape t = [n; c; h; w] -> wf t -> shape g = [n; ho; wo; 2] -> wf g ->
    exists t', F_grid_sample t g = inr t' /\
               dtype t' = Float /\ shape t' = [n; c; ho; wo] /\ wf t';
  grid_sample_batch : forall t g n c h w n' ho wo,
    shape t = [n; c; h; w] -> shape g = [n'; ho; wo; 2] -> n <> n' ->
    F_grid_sample t g = inl RuntimeError;
  grid_sample_dtype : forall t g,
    dtype t <> dtype g -> F_grid_sample t g = inl RuntimeError
}.

(** [t.movedim(1, -1)]: axis 1 becomes the last axis. *)
Definition movedim_1_last (t : ndarray) : exn + ndarray :=
  match shape t with
  | s0 :: s1 :: rest =>
      inr {| dtype := dtype t; shape := s0 :: rest ++ [s1];
             data :=
               flat_map (fun b =>
                 flat_map (fun r =>
                   map (fun c => nth ((b * s1 + c) * numel rest + r) (data t) 0%Q)
                       (seq 0 s1))
                   (seq 0 (numel rest)))
                 (seq 0 s0) |}
  | _ => inl IndexError
  end.

(** [t.view(-1, 2)]: the rows of a tensor whose last axis has two entries. *)
Fixpoint view2 (l : list Q) : list (Q * Q) :=
  match l with
  | x :: y :: l' => (x, y) :: view2 l'
  | _ => []
  end.

Definition unview2 (rows : list (Q * Q)) : list Q :=
  flat_map (fun p => [fst p; snd p]) rows.

(** [t op v] where [v] has two entries and [t] a last axis of two:
    broadcasting pairs entry [c] of every row with [v[c]]. *)
Definition broadcast2 (op : Q -> Q -> Q) (t : ndarray) (v : Q * Q) : ndarray :=
  {| dtype := dtype t; shape := shape t;
     data := unview2 (map (fun p => (op (fst p) (fst v), op (snd p) (snd v)))
                          (view2 (data t))) |}.

Definition Qmin_list (l : list Q) : option Q :=
  match l with
  | [] => None
  | x :: l' => Some (foldr Qmin x l')
  end.

Definition Qmax_list (l : list Q) : option Q :=
  match l with
  | [] => None
  | x :: l' => Some (foldr Qmax x l')
  end.

(** The two columns of [t.view(-1, 2)]: the first and the second
    coordinate of every entry of the field. *)
Definition coord_x (t : ndarray) : list Q := map fst (view2 (data t)).
Definition coord_y (t : ndarray) : list Q := map snd (view2 (data t)).

(** [t.view(-1, 2).min(0)] and [.max(0)] (the values; the indices are
    discarded by the caller).  Reducing an axis of size zero raises. *)
Definition min0 (t : ndarray) : exn + Q * Q :=
  match Qmin_list (coord_x t), Qmin_list (coord_y t) with
  | Some a, Some b => inr (a, b)
  | _, _ => inl IndexError
  end.

Definition max0 (t : ndarray) : exn + Q * Q :=
  match Qmax_list (coord_x t), Qmax_list (coord_y t) with
  | Some a, Some b => inr (a, b)
  | _, _ => inl IndexError
  end.

(** A list of values spans [[a, b]]: its least entry is [a], its greatest
    is [b] (as rationals). *)
Definition spans (l : list Q) (a b : Q) : Prop :=
  exists lo hi,
    Qmin_list l = Some lo /\ Qmax_list l = Some hi /\ (lo == a)%Q /\ (hi == b)%Q.

(** [torch.linspace(start, stop, n)] *)
Definition linspace (start stop : Q) (n : nat) : list Q :=
  map (fun k => (start + inject_Z (Z.of_nat k)
                         * ((stop - start) / inject_Z (Z.of_nat n - 1)))%Q)
      (seq 0 n).

(** [torch.stack(torch.meshgrid(linspace(-1, 1, py), linspace(-1, 1, px))[::-1], 2)
    .unsqueeze(0)]: entry [[0, i, j]] is the pair (x_j, y_i). *)
Definition identity_field (py px : nat) : ndarray :=
  {| dtype := Float; shape := [1; py; px; 2];
     data := flat_map (fun y => flat_map (fun x => [x; y]) (linspace (-1) 1 px))
                      (linspace (-1) 1 py) |}.

Definition shape_eqb (s1 s2 : list nat) : bool := bool_decide (s1 = s2).

Record WanetBackdoor : Type := mk_WanetBackdoor {
  wn_p_backdoor : Q;
  wn_p_noise : Q;
  wn_control_grid_width : Z;
  wn_warping_strength : Q;
  wn_target_class : Z;
  wn_control_grid : nat   (* reference to the tensor [self.control_grid] *)
}.

(** [torch.rand(1, 2, k, k)].  A negative size (one the argument parser
    takes, a signed 64-bit integer) is refused with a [RuntimeError].  For
    any other size the outcome is the library's, and is an argument:
    [rand] is [inr u] when the tensor is delivered, [u k] being the [k]-th
    element drawn, and [inl e] when the call raises [e] instead, as it does
    for a size that is not a signed 64-bit integer (a [TypeError] of the
    argument parser), for a size it cannot count and when the allocator
    has no memory for the tensor.  No tensor is delivered whose number of
    elements is beyond [2 ^ 63 - 1]: for such a size the size check
    raises. *)
Definition torch_rand_grid (k : Z) (rand : exn + (nat -> Q)) : exn + ndarray :=
  if ((- 2 ^ 63 <=? k) && (k <? 0))%Z then inl RuntimeError
  else match rand with
       | inl e => inl e
       | inr u =>
           if ((k <? 0) || (2 ^ 63 <=? 2 * k * k))%Z then inl RuntimeError
           else inr (random_array [1; 2; Z.to_nat k; Z.to_nat k] u)
       end.

(** The widths for which [torch.rand] can deliver the tensor. *)
Definition grid_size_ok (k : Z) : Prop := (0 <= k)%Z /\ (2 * k * k < 2 ^ 63)%Z.

(** The value [self.control_grid] ends up bound to (lines 98 to 100). *)
Definition control_grid_value (g0 : ndarray) (warping_strength : Q) : ndarray :=
  let g1 := tmap (fun x => 2 * x - 1)%Q g0 in
  let m := tensor_mean (tmap Qabs g1) in
  let g2 := tmap (fun x => x / m)%Q g1 in
  tmap (fun x => x * warping_strength)%Q g2.

(** The grid [__post_init__] stores, for given draws [u]. *)
Definition sampled_grid (k : Z) (ws : Q) (u : nat -> Q) : ndarray :=
  control_grid_value (random_array [1; 2; Z.to_nat k; Z.to_nat k] u) ws.

(** The dataclass constructor with [__post_init__]; [rand] is what
    [torch.rand] does (see [torch_rand_grid]).  The intermediate tensors
    are garbage once the attribute is rebound, so only the last one is
    allocated.  [p_transform] is a sum of two Python floats, rounded to
    float64; the bounds it is compared with are exact in float64. *)
Definition WanetBackdoor_new (p_backdoor p_noise : Q) (control_grid_width : Z)
    (warping_strength : Q) (target_class : Z) (rand : exn + (nat -> Q))
  : pyM WanetBackdoor :=
  Transform_post_init;;
  let k := Z.to_nat control_grid_width in
  let control_grid_size := [1; 2; k; k] in
  g0 ← lift (torch_rand_grid control_grid_width rand);
  grid ← alloc (control_grid_value g0 warping_strength);
  g ← load grid;
  py_assert (shape_eqb (shape g) control_grid_size) "";;
  let p_transform := float64 (p_backdoor + p_noise) in
  py_assert (Qle_bool 0 p_transform && Qle_bool p_transform 1)
            "Probability must be between 0 and 1";;
  mret (mk_WanetBackdoor p_backdoor p_noise control_grid_width
                         warping_strength target_class grid).

(** [2 * torch.rand_like(warping_field) - 1] *)
Definition wanet_noise (warping_field : ndarray) (u : nat -> Q) : ndarray :=
  tmap (fun x => 2 * x - 1)%Q (random_array (shape warping_field) u).

(** Lines 114 to 127: the dense displacement field and the label.
    [u] are the draws of [torch.rand_like].  The test
    [rand_sample < self.p_noise] is made in float32. *)
Definition wanet_displacement `{TorchFunctional} (self : WanetBackdoor)
    (grid : ndarray) (py px : nat) (target : Z) (rand_sample : Q) (u : nat -> Q)
  : pyM (ndarray * Z) :=
  up ← lift (F_interpolate grid py px);
  warping_field ← lift (movedim_1_last up);
  py_assert (shape_eqb (shape warping_field) [1; py; px; 2]) "";;
  if Qlt_bool (float32 rand_sample) (float32 (wn_p_noise self)) then
    let noise := wanet_noise warping_field u in
    mret (ndarray_add warping_field noise, target)
  else
    mret (warping_field, wn_target_class self).

(** Lines 130 to 136: relative displacement added to the identity field. *)
Definition wanet_relative (warping_field : ndarray) (py px : nat) : pyM ndarray :=
  let warping_field :=
    broadcast2 Qdiv warping_field
               (inject_Z (Z.of_nat py), inject_Z (Z.of_nat px)) in
  let identity := identity_field py px in
  py_assert (shape_eqb (shape identity) (shape warping_field)) "";;
  mret (ndarray_add identity warping_field).

(** Lines 139 to 142: per-coordinate min-max rescale. *)
Definition wanet_normalize (warping_field : ndarray) (py px : nat) : pyM ndarray :=
  w_min ← lift (min0 warping_field);
  w_max ← lift (max0 warping_field);
  let range := ((fst w_max - fst w_min)%Q, (snd w_max - snd w_min)%Q) in
  let t1 := broadcast2 Qminus warping_field w_min in
  let t2 := tmap (fun x => 2 * x)%Q t1 in
  let t3 := broadcast2 Qdiv t2 range in
  let warping_field := tmap (fun x => x - 1)%Q t3 in
  py_assert (shape_eqb (shape warping_field) [1; py; px; 2]) "";;
  mret warping_field.

(** [__call__].  [rand_sample] is the value of [torch.rand(1)], [u] the
    draws of [torch.rand_like].  [torch.tensor(img)] copies its argument,
    keeping its element type, and [img.numpy()] is a new array object.
    The threshold [self.p_backdoor + self.p_noise] is a sum of Python
    floats, rounded to float64, and the test against the float32 draw is
    made in float32. *)
Definition WanetBackdoor_call `{TorchFunctional} (self : WanetBackdoor)
    (sample : nat * Z) (rand_sample : Q) (u : nat -> Q) : pyM (nat * Z) :=
  let '(img_ref, target) := sample in
  img ← load img_ref;
  match shape img with
  | [bs; cs; py; px] =>
      if Qle_bool (float32 rand_sample)
                  (float32 (float64 (wn_p_backdoor self + wn_p_noise self))) then
        grid ← load (wn_control_grid self);
        '(warping_field, target) ←
          wanet_displacement self grid py px target rand_sample u;
        warping_field ← wanet_relative warping_field py px;
        warping_field ← wanet_normalize warping_field py px;
        img ← lift (F_grid_sample img warping_field);
        py_assert (shape_eqb (shape img) [bs; cs; py; px]) "";;
        out ← alloc img;
        mret (out, target)
      else
        out ← alloc img;
        mret (out, target)
  | _ => raise ValueError
  end.

(** A run of calls on one transform instance, each with its own sample and
    draws; an exception in one call does not stop the next. *)
Fixpoint wanet_calls `{TorchFunctional} (self : WanetBackdoor)
    (calls : list ((nat * Z) * Q * (nat -> Q))) (h : gmap nat ndarray)
  : gmap nat ndarray :=
  match calls with
  | [] => h
  | (sample, r, u) :: rest =>
      wanet_calls self rest (snd (WanetBackdoor_call self sample r u h))
  end.

(** ** A reference implementation of the library interface

    Nearest-neighbour versions of the two library functions, with the
    argument checks of the originals that matter here (four-dimensional
    input, non-empty sizes, equal batch sizes and equal element types of
    input and grid).  They instantiate [TorchFunctional] where a concrete
    run is evaluated. *)

Definition nearest_interpolate (t : ndarray) (py px : nat) : exn + ndarray :=
  match shape t with
  | [n; c; h; w] =>
      if (h =? 0) || (w =? 0) || (py =? 0) || (px =? 0) then inl RuntimeError
      else
        inr {| dtype := dtype t; shape := [n; c; py; px];
               data :=
                 flat_map (fun b =>
                   flat_map (fun ch =>
                     flat_map (fun i =>
                       map (fun j =>
                              nth (((b * c + ch) * h + i * h / py) * w + j * w / px)
                                  (data t) 0%Q)
                           (seq 0 px))
                       (seq 0 py))
                     (seq 0 c))
                   (seq 0 n) |}
  | _ => inl ValueError
  end.

(** The pixel a normalised coordinate in [[-1, 1]] falls in, clamped to the
    border. *)
Definition nearest_pixel (x : Q) (n : nat) : nat :=
  Z.to_nat (Z.max 0 (Z.min (Z.of_nat n - 1)
                           (Qfloor ((x + 1) * inject_Z (Z.of_nat n) / 2)))).

Definition scalar_type_eqb (d1 d2 : scalar_type) : bool :=
  match d1, d2 with
  | Byte, Byte | Float, Float | Double, Double => true
  | _, _ => false
  end.

Definition nearest_grid_sample (t g : ndarray) : exn + ndarray :=
  if negb (scalar_type_eqb (dtype t) (dtype g)) then inl RuntimeError else
  match shape t, shape g with
  | [n; c; h; w], [n'; ho; wo; 2] =>
      if negb (n =? n') then inl RuntimeError
      else
        inr {| dtype := dtype t; shape := [n; c; ho; wo];
               data :=
                 flat_map (fun b =>
                   flat_map (fun ch =>
                     flat_map (fun i =>
                       map (fun j =>
                              let k := ((b * ho + i) * wo + j) * 2 in
                              let x := nth k (data g) 0%Q in
                              let y := nth (k + 1) (data g) 0%Q in
                              nth (((b * c + ch) * h + nearest_pixel y h) * w
                                   + nearest_pixel x w)
                                  (data t) 0%Q)
                           (seq 0 wo))
                       (seq 0 ho))
                     (seq 0 c))
                   (seq 0 n) |}
  | _, _ => inl RuntimeError
  end.

Definition nearest_torch : TorchFunctional :=
  {| F_interpolate := nearest_interpolate; F_grid_sample := nearest_grid_sample |}.

(** ** A concrete instance, for evaluating runs

    A transform with [p_backdoor = 1/2], [p_noise = 1/4], a 2x2 control
    grid, [target_class = 3]; draws that cycle through the tenths; and a
    single 2x3 one-channel float32 image. *)

Definition demo_draws (k : nat) : Q := Z.of_nat ((k * 7 + 3) mod 10) # 10.

Definition demo_wanet : WanetBackdoor := mk_WanetBackdoor (1#2) (1#4) 2 (1#2) 3 0.

Definition demo_img : ndarray :=
  {| dtype := Float; shape := [1; 1; 2; 3]; data := [1; 2; 3; 4; 5; 6]%Q |}.

Definition demo_grid_heap : gmap nat ndarray :=
  {[ 0 := sampled_grid 2 (1#2) demo_draws ]}.

Definition demo_heap : gmap nat ndarray := <[1 := demo_img]> demo_grid_heap.

(** A 1x2 field of pairs: entries (0, 1) and (2, 5). *)
Definition demo_field : ndarray :=
  {| dtype := Float; shape := [1; 1; 2; 2]; data := [0; 1; 2; 5]%Q |}.

(** Images for the corner-pixel and noise transforms: a 2x3 grey-scale
    image and a 1x1 three-channel image, both black, of numpy's default
    element type. *)
Definition demo_gray : ndarray := mk_ndarray [2; 3] [0; 0; 0; 0; 0; 0]%Q.

Definition demo_rgb : ndarray := mk_ndarray [1; 1; 3] [0; 0; 0]%Q.

(** Python floats and float32 draws next to a threshold, as the rationals
    they are: the floats [0.6], [0.9] and [0.5000000000000001], and the
    float32 values nearest to [0.6] and to [0.9], both of which
    [torch.rand] can return. *)
Definition double_0_6 : Q := 5404319552844595 # 9007199254740992.
Definition double_0_9 : Q := 8106479329266893 # 9007199254740992.
Definition double_half_up : Q := 4503599627370497 # 9007199254740992.
Definition single_0_6 : Q := 5033165 # 8388608.
Definition single_0_9 : Q := 7549747 # 8388608.

(** Two more transforms on the grid of [demo_grid_heap]:
    [p_backdoor = 0.6] with no noise mode, and [p_noise = 0.9] with
    [p_backdoor = 1/16]. *)
Definition demo_wanet_0_6 : WanetBackdoor :=
  mk_WanetBackdoor double_0_6 0 2 (1#2) 3 0.

Definition demo_wanet_0_9 : WanetBackdoor :=
  mk_WanetBackdoor (1#16) double_0_9 2 (1#2) 3 0.

(** A batch of two 2x3 one-channel float32 images, and the single image
    of [demo_img] as a float64 array. *)
Definition demo_batch : ndarray :=
  {| dtype := Float; shape := [2; 1; 2; 3];
     data := [1; 2; 3; 4; 5; 6; 7; 8; 9; 10; 11; 12]%Q |}.

Definition demo_double_img : ndarray :=
  mk_ndarray [1; 1; 2; 3] [1; 2; 3; 4; 5; 6]%Q.
(** * Floating-point rounding is monotone *)

Section Rounding.
Local Open Scope Q_scope.

Lemma pow2_pos e : 0 < pow2 e.
Proof. apply Qpower_0_lt. reflexivity. Qed.

Lemma pow2_add a b : pow2 (a + b) == pow2 a * pow2 b.
Proof. apply Qpower_plus. discriminate. Qed.

Lemma pow2_sub a b : pow2 (a - b) == pow2 a / pow2 b.
Proof. apply Qpower_minus. discriminate. Qed.

Lemma pow2_le a b : (a <= b)%Z -> pow2 a <= pow2 b.
Proof. intros H. apply Qpower_le_compat_l; [exact H|discriminate]. Qed.

Lemma pow2_lt a b : (a < b)%Z -> pow2 a < pow2 b.
Proof. intros H. apply Qpower_lt_compat_l; [exact H|reflexivity]. Qed.

Lemma pow2_lt_inv a b : pow2 a < pow2 b -> (a < b)%Z.
Proof. intros H. apply (Qpower_lt_compat_l_inv 2); [exact H|reflexivity]. Qed.

Lemma pow2_int e : (0 <= e)%Z -> pow2 e == inject_Z (2 ^ e).
Proof. intros H. unfold pow2. rewrite Zpower_Qpower by exact H. reflexivity. Qed.

(** ** Rounding to the nearest integer, ties to even *)

Lemma rne_comp (m1 m2 : Q) : m1 == m2 -> rne m1 = rne m2.
Proof.
  intros E. unfold rne. rewrite (Qfloor_comp _ _ E).
  assert (E' : m1 - inject_Z (Qfloor m2) == m2 - inject_Z (Qfloor m2))
    by (rewrite E; reflexivity).
  rewrite (Qcompare_comp _ _ E' _ _ (Qeq_refl (1 # 2))). reflexivity.
Qed.

Lemma rne_int (z : Z) : rne (inject_Z z) = z.
Proof.
  unfold rne. rewrite Qfloor_Z.
  destruct (Qcompare_spec (inject_Z z - inject_Z z) (1 # 2)) as [E|E|E];
    [exfalso; lra|reflexivity|exfalso; lra].
Qed.

Lemma rne_floor (m : Q) : (Qfloor m <= rne m <= Qfloor m + 1)%Z.
Proof.
  unfold rne. destruct (Qcompare _ _); [destruct (Z.even _)| |]; lia.
Qed.

Lemma rne_mono (m1 m2 : Q) : m1 <= m2 -> (rne m1 <= rne m2)%Z.
Proof.
  intros H. pose proof (Qfloor_resp_le _ _ H) as Hf.
  destruct (Z.eq_dec (Qfloor m1) (Qfloor m2)) as [E|E].
  - unfold rne. rewrite E.
    destruct (Qcompare_spec (m1 - inject_Z (Qfloor m2)) (1 # 2)) as [E1|E1|E1];
      destruct (Qcompare_spec (m2 - inject_Z (Qfloor m2)) (1 # 2)) as [E2|E2|E2];
      try destruct (Z.even (Qfloor m2)); try lia; exfalso; lra.
  - pose proof (rne_floor m1). pose proof (rne_floor m2). lia.
Qed.

(** ** The binary exponent *)

Lemma pow2_Zle (a n : Z) : (0 <= a)%Z -> (2 ^ a <= n)%Z -> pow2 a <= inject_Z n.
Proof. intros Ha H. rewrite pow2_int by exact Ha. rewrite <- Zle_Qle. exact H. Qed.

Lemma pow2_Zlt (a n : Z) : (0 <= a)%Z -> (n < 2 ^ a)%Z -> inject_Z n < pow2 a.
Proof. intros Ha H. rewrite pow2_int by exact Ha. rewrite <- Zlt_Qlt. exact H. Qed.

Lemma ilog2_bounds (x : Q) :
  0 < x ->
  let e0 := (Z.log2 (Qnum x) - Z.log2 (Zpos (Qden x)))%Z in
  pow2 (e0 - 1) <= x /\ x < pow2 (e0 + 1).
Proof.
  intros Hx e0. destruct x as [n d]. unfold e0. cbn [Qnum Qden].
  assert (Hn : (0 < n)%Z) by (unfold Qlt in Hx; simpl in Hx; lia).
  pose proof (Z.log2_spec n Hn) as [Ha1 Ha2].
  pose proof (Z.log2_spec (Zpos d) eq_refl) as [Hb1 Hb2].
  pose proof (Z.log2_nonneg n) as Ha0.
  pose proof (Z.log2_nonneg (Zpos d)) as Hb0.
  set (a := Z.log2 n) in *. set (b := Z.log2 (Zpos d)) in *.
  assert (Hd : 0 < inject_Z (Zpos d)) by reflexivity.
  rewrite (Qmake_Qdiv n d). split.
  - apply Qle_shift_div_l; [exact Hd|].
    apply Qle_trans with (pow2 (a - b - 1) * pow2 (b + 1)).
    + apply Qmult_le_l; [apply pow2_pos|].
      apply Qlt_le_weak, pow2_Zlt; lia.
    + rewrite <- pow2_add. replace (a - b - 1 + (b + 1))%Z with a by lia.
      apply pow2_Zle; assumption.
  - apply Qlt_shift_div_r; [exact Hd|].
    apply Qlt_le_trans with (pow2 (a - b + 1) * pow2 b).
    + rewrite <- pow2_add. replace (a - b + 1 + b)%Z with (Z.succ a) by lia.
      apply pow2_Zlt; lia.
    + apply Qmult_le_l; [apply pow2_pos|]. apply pow2_Zle; assumption.
Qed.

Lemma ilog2_spec (x : Q) :
  0 < x -> pow2 (ilog2 x) <= x /\ x < pow2 (ilog2 x + 1).
Proof.
  intros Hx. destruct (ilog2_bounds x Hx) as [H1 H2]. unfold ilog2.
  set (e0 := (Z.log2 (Qnum x) - Z.log2 (Zpos (Qden x)))%Z) in *.
  destruct (Qle_bool (pow2 e0) x) eqn:E.
  - apply Qle_bool_iff in E. split; assumption.
  - split; [exact H1|]. replace (e0 - 1 + 1)%Z with e0 by lia.
    apply Qnot_le_lt. intros H. apply Qle_bool_iff in H. congruence.
Qed.

Lemma ilog2_unique (x : Q) (e : Z) :
  pow2 e <= x -> x < pow2 (e + 1) -> ilog2 x = e.
Proof.
  intros H1 H2.
  assert (Hx : 0 < x) by (eapply Qlt_le_trans; [apply (pow2_pos e)|exact H1]).
  destruct (ilog2_spec x Hx) as [H3 H4].
  assert (ilog2 x < e + 1)%Z
    by (apply pow2_lt_inv; eapply Qle_lt_trans; eassumption).
  assert (e < ilog2 x + 1)%Z
    by (apply pow2_lt_inv; eapply Qle_lt_trans; eassumption).
  lia.
Qed.

Lemma ilog2_mono (x y : Q) : 0 < x -> x <= y -> (ilog2 x <= ilog2 y)%Z.
Proof.
  intros Hx H.
  assert (Hy : 0 < y) by (eapply Qlt_le_trans; eassumption).
  destruct (ilog2_spec x Hx) as [H1 _]. destruct (ilog2_spec y Hy) as [_ H2].
  assert (ilog2 x < ilog2 y + 1)%Z; [|lia].
  apply pow2_lt_inv. eapply Qle_lt_trans; [exact H1|].
  eapply Qle_lt_trans; eassumption.
Qed.

(** ** Rounding on the grid of one exponent *)

Lemma round_at_mono (e : Z) (x y : Q) : x <= y -> round_at e x <= round_at e y.
Proof.
  intros H. unfold round_at. apply Qmult_le_compat_r.
  - rewrite <- Zle_Qle. apply rne_mono.
    apply Qmult_le_compat_r; [exact H|].
    apply Qlt_le_weak, Qinv_lt_0_compat, pow2_pos.
  - apply Qlt_le_weak, pow2_pos.
Qed.

Lemma round_at_grid (e k : Z) (x : Q) :
  x == inject_Z k * pow2 e -> round_at e x == x.
Proof.
  intros E. unfold round_at.
  assert (Hm : x / pow2 e == inject_Z k).
  { rewrite E. field. apply Qnot_eq_sym, Qlt_not_eq, pow2_pos. }
  rewrite (rne_comp _ _ Hm), rne_int, E. reflexivity.
Qed.

Lemma round_at_nonneg (e : Z) (x : Q) : 0 <= x -> 0 <= round_at e x.
Proof.
  intros H. rewrite <- (round_at_grid e 0 0) by ring.
  apply round_at_mono. exact H.
Qed.

(** A power of two at or above the exponent is on the grid. *)
Lemma pow2_on_grid (e b : Z) :
  (e <= b)%Z -> pow2 b == inject_Z (2 ^ (b - e)) * pow2 e.
Proof.
  intros H. rewrite <- pow2_int by lia. rewrite <- pow2_add.
  replace (b - e + e)%Z with b by lia. reflexivity.
Qed.

(** ** Monotonicity of rounding *)

Lemma fexp_mono (prec emin : Z) (x y : Q) :
  0 < x -> x <= y -> (fexp prec emin x <= fexp prec emin y)%Z.
Proof. intros Hx H. pose proof (ilog2_mono x y Hx H). unfold fexp. lia. Qed.

Lemma fl_pos_mono (prec emin : Z) (x y : Q) :
  (1 <= prec)%Z -> 0 < x -> x <= y -> fl_pos prec emin x <= fl_pos prec emin y.
Proof.
  intros Hp Hx H. unfold fl_pos.
  pose proof (fexp_mono prec emin x y Hx H) as He.
  destruct (Z.eq_dec (fexp prec emin x) (fexp prec emin y)) as [E|E].
  - rewrite E. apply round_at_mono. exact H.
  - assert (Hy : 0 < y) by (eapply Qlt_le_trans; eassumption).
    destruct (ilog2_spec x Hx) as [_ Hx2]. destruct (ilog2_spec y Hy) as [Hy1 _].
    assert (Hlog : (ilog2 x + 1 <= ilog2 y)%Z) by (unfold fexp in *; lia).
    assert (HxB : x <= pow2 (ilog2 y)).
    { apply Qlt_le_weak. eapply Qlt_le_trans; [exact Hx2|]. apply pow2_le, Hlog. }
    apply Qle_trans with (pow2 (ilog2 y)).
    + rewrite <- (round_at_grid (fexp prec emin x) (2 ^ (ilog2 y - fexp prec emin x))
                    (pow2 (ilog2 y))).
      * apply round_at_mono. exact HxB.
      * apply pow2_on_grid. unfold fexp in *. lia.
    + rewrite <- (round_at_grid (fexp prec emin y) (2 ^ (ilog2 y - fexp prec emin y))
                    (pow2 (ilog2 y))) at 1.
      * apply round_at_mono. exact Hy1.
      * apply pow2_on_grid. unfold fexp in *. lia.
Qed.

Lemma fl_pos_nonneg (prec emin : Z) (x : Q) : 0 <= x -> 0 <= fl_pos prec emin x.
Proof. apply round_at_nonneg. Qed.

Lemma fl_mono (prec emin : Z) (x y : Q) :
  (1 <= prec)%Z -> x <= y -> fl prec emin x <= fl prec emin y.
Proof.
  intros Hp H. unfold fl.
  destruct (Qcompare_spec x 0) as [Ex|Ex|Ex];
    destruct (Qcompare_spec y 0) as [Ey|Ey|Ey]; try (exfalso; lra).
  - apply Qle_refl.
  - apply fl_pos_nonneg. lra.
  - pose proof (fl_pos_nonneg prec emin (- x)). lra.
  - apply Qopp_le_compat. apply fl_pos_mono; [exact Hp|lra|lra].
  - pose proof (fl_pos_nonneg prec emin (- x)).
    pose proof (fl_pos_nonneg prec emin y). lra.
  - apply fl_pos_mono; assumption.
Qed.

Lemma fl_comp (prec emin : Z) (x y : Q) :
  (1 <= prec)%Z -> x == y -> fl prec emin x == fl prec emin y.
Proof.
  intros Hp E. apply Qle_antisym; apply fl_mono; try exact Hp; rewrite E; apply Qle_refl.
Qed.

(** ** A value of a format is a value of every wider format *)

Lemma fl_pos_widen (p1 e1 p2 e2 : Z) (x : Q) :
  (p1 <= p2)%Z -> (e2 <= e1)%Z ->
  fl_pos p1 e1 x == x -> fl_pos p2 e2 x == x.
Proof.
  intros Hp He E. unfold fl_pos in *.
  set (k := rne (x / pow2 (fexp p1 e1 x))) in *.
  unfold round_at in E. fold k in E.
  apply (round_at_grid _ (k * 2 ^ (fexp p1 e1 x - fexp p2 e2 x))).
  rewrite inject_Z_mult, <- Qmult_assoc, <- pow2_on_grid by (unfold fexp; lia).
  symmetry. exact E.
Qed.

Lemma fl_widen (p1 e1 p2 e2 : Z) (x : Q) :
  (p1 <= p2)%Z -> (e2 <= e1)%Z ->
  fl p1 e1 x == x -> fl p2 e2 x == x.
Proof.
  intros Hp He. unfold fl. destruct (Qcompare_spec x 0) as [Ex|Ex|Ex].
  - intros _. symmetry. exact Ex.
  - intros E. rewrite (fl_pos_widen p1 e1 p2 e2 (- x) Hp He); lra.
  - apply fl_pos_widen; assumption.
Qed.

Lemma float32_mono (x y : Q) : x <= y -> float32 x <= float32 y.
Proof. apply fl_mono. lia. Qed.

Lemma float64_mono (x y : Q) : x <= y -> float64 x <= float64 y.
Proof. apply fl_mono. lia. Qed.

Lemma float32_is_float64 (x : Q) : float32 x == x -> float64 x == x.
Proof. apply fl_widen; lia. Qed.

End Rounding.

(** ** Facts about indexing *)

Lemma norm_index_lt i n k : norm_index i n = Some k -> k < n.
Proof.
  unfold norm_index.
  destruct ((0 <=? i) && (i <? Z.of_nat n))%Z eqn:E1.
  - intros [= <-]. apply andb_true_iff in E1 as [H1 H2]. lia.
  - destruct ((- Z.of_nat n <=? i) && (i <? 0))%Z eqn:E2; [|discriminate].
    intros [= <-]. apply andb_true_iff in E2 as [H1 H2]. lia.
Qed.

Lemma norm_index_zero n : 0 < n -> norm_index 0 n = Some 0.
Proof.
  intros Hn. unfold norm_index.
  destruct ((0 <=? 0) && (0 <? Z.of_nat n))%Z eqn:E; [reflexivity|].
  apply andb_false_iff in E as [E|E]; lia.
Qed.

Lemma norm_index_last n : 0 < n -> norm_index (-1) n = Some (n - 1).
Proof.
  intros Hn. unfold norm_index.
  destruct ((0 <=? -1) && (-1 <? Z.of_nat n))%Z eqn:E1.
  - apply andb_true_iff in E1 as [H1 H2]. lia.
  - destruct ((- Z.of_nat n <=? -1) && (-1 <? 0))%Z eqn:E2.
    + f_equal. lia.
    + apply andb_false_iff in E2 as [E2|E2]; lia.
Qed.

(** Overwriting the [bs] entries from [off] on changes those and no other. *)
Lemma lookup_splice (d : list Q) (off bs : nat) (v : Q) (n : nat) :
  off + bs <= length d ->
  (take off d ++ replicate bs v ++ drop (off + bs) d) !! n
  = if decide (off <= n < off + bs) then Some v else d !! n.
Proof.
  intros Hlen.
  assert (Ht : length (take off d) = off) by (rewrite length_take; lia).
  destruct (decide (n < off)) as [Hlt|Hge].
  - rewrite lookup_app_l by lia. rewrite lookup_take_lt by lia.
    case_decide; [lia|reflexivity].
  - rewrite lookup_app_r by lia. rewrite Ht.
    destruct (decide (n - off < bs)) as [Hin|Hout].
    + rewrite lookup_app_l by (rewrite length_replicate; lia).
      rewrite lookup_replicate_2 by lia. case_decide; [reflexivity|lia].
    + rewrite lookup_app_r by (rewrite length_replicate; lia).
      rewrite length_replicate, lookup_drop.
      case_decide; [lia|]. f_equal. lia.
Qed.

Lemma length_splice (d : list Q) (off bs : nat) (v : Q) :
  off + bs <= length d ->
  length (take off d ++ replicate bs v ++ drop (off + bs) d) = length d.
Proof.
  intros Hlen.
  rewrite !length_app, length_take, length_replicate, length_drop. lia.
Qed.

(** Row-major offsets of distinct pixels do not overlap. *)
Lemma pixel_block_bound (i j h w bs : nat) :
  i < h -> j < w -> (i * w + j) * bs + bs <= h * (w * bs).
Proof.
  intros Hi Hj.
  assert (H1 : i * w + j + 1 <= h * w) by nia.
  apply (Nat.mul_le_mono_r _ _ bs) in H1. lia.
Qed.

Lemma pixel_block_iff (i j i0 j0 w bs c : nat) :
  j < w -> j0 < w -> c < bs ->
  ((i0 * w + j0) * bs <= (i * w + j) * bs + c < (i0 * w + j0) * bs + bs)
  <-> (i = i0 /\ j = j0).
Proof.
  intros Hj Hj0 Hc. split.
  - intros [H1 H2].
    assert (Hp : i * w + j = i0 * w + j0) by nia.
    assert (i = i0) by nia. subst i0. split; [reflexivity|lia].
  - intros [-> ->]. lia.
Qed.

(** What [a[i, j] = v] does, read back pixel by pixel. *)
Lemma setitem2_spec (a : ndarray) (h w : nat) (rest : list nat)
    (i j : Z) (i0 j0 : nat) (v : Q) :
  shape a = h :: w :: rest -> wf a ->
  norm_index i h = Some i0 -> norm_index j w = Some j0 ->
  exists a',
    setitem2 a i j v = inr a' /\ shape a' = shape a /\ wf a' /\
    forall i' j' c, i' < h -> j' < w -> c < numel rest ->
      getpixel a' i' j' c
      = if decide (i' = i0 /\ j' = j0) then Some v else getpixel a i' j' c.
Proof.
  intros Hs Hwf Hi Hj.
  pose proof (norm_index_lt _ _ _ Hi) as Hi0.
  pose proof (norm_index_lt _ _ _ Hj) as Hj0.
  assert (Hlen : (i0 * w + j0) * numel rest + numel rest <= length (data a)).
  { rewrite Hwf, Hs. simpl. apply pixel_block_bound; assumption. }
  eexists. unfold setitem2. rewrite Hs, Hi, Hj. simpl.
  split; [reflexivity|]. split; [reflexivity|]. split.
  - unfold wf. simpl. rewrite length_splice by exact Hlen.
    unfold wf in Hwf. rewrite Hwf, Hs. reflexivity.
  - intros i' j' c Hi' Hj' Hc. unfold getpixel. simpl. rewrite Hs.
    rewrite lookup_splice by exact Hlen.
    destruct (decide (i' = i0 /\ j' = j0)) as [Heq|Hne].
    + rewrite decide_True; [reflexivity|].
      apply pixel_block_iff; assumption.
    + rewrite decide_False; [reflexivity|].
      intros Hin. apply Hne. eapply pixel_block_iff; eassumption.
Qed.

(** ** Reasoning about Python computations *)

Lemma bind_unfold {A B : Type} (m : pyM A) (f : A -> pyM B) (h : gmap nat ndarray) :
  (m ≫= f) h
  = match m h with
    | (inl e, h') => (inl e, h')
    | (inr x, h') => f x h'
    end.
Proof. reflexivity. Qed.

Lemma bind_inr {A B : Type} (m : pyM A) (f : A -> pyM B) h x h' :
  m h = (inr x, h') -> (m ≫= f) h = f x h'.
Proof. intros E. rewrite bind_unfold, E. reflexivity. Qed.

(** A bind that returned did so through a returning first half. *)
Lemma bind_returns {A B : Type} (m : pyM A) (f : A -> pyM B) h y h2 :
  (m ≫= f) h = (inr y, h2) ->
  exists x h1, m h = (inr x, h1) /\ f x h1 = (inr y, h2).
Proof.
  rewrite bind_unfold. destruct (m h) as [[e|x] h1]; [discriminate|].
  intros E. exists x, h1. split; [reflexivity|exact E].
Qed.

Lemma assert_returns b msg h (x : unit) h' :
  py_assert b msg h = (inr x, h') -> b = true /\ h' = h.
Proof.
  destruct b; unfold py_assert; [|discriminate].
  intros [= _ <-]. split; reflexivity.
Qed.

Lemma lift_returns {A : Type} (x : exn + A) h a h' :
  lift x h = (inr a, h') -> x = inr a /\ h' = h.
Proof.
  destruct x as [e|a0]; unfold lift; [discriminate|].
  intros [= <- <-]. split; reflexivity.
Qed.

Lemma load_returns l h a h' :
  load l h = (inr a, h') -> h !! l = Some a /\ h' = h.
Proof.
  unfold load. destruct (h !! l) as [a0|]; [|discriminate].
  intros [= <- <-]. split; reflexivity.
Qed.

Lemma load_some l h a : h !! l = Some a -> load l h = (inr a, h).
Proof. intros E. unfold load. rewrite E. reflexivity. Qed.

Lemma bind_ret {A B : Type} (x : A) (f : A -> pyM B) h :
  (mret x ≫= f) h = f x h.
Proof. reflexivity. Qed.

Lemma bind_lift_inr {A B : Type} (x : A) (f : A -> pyM B) h :
  (lift (inr x) ≫= f) h = f x h.
Proof. reflexivity. Qed.

Lemma bind_alloc {B : Type} (a : ndarray) (f : nat -> pyM B) h :
  (alloc a ≫= f) h = f (fresh (dom h)) (<[fresh (dom h) := a]> h).
Proof. reflexivity. Qed.

Lemma bind_load {B : Type} l a (f : ndarray -> pyM B) h :
  h !! l = Some a -> (load l ≫= f) h = f a h.
Proof. intros E. apply bind_inr, load_some, E. Qed.

Lemma bind_assert_true {B : Type} msg (f : unit -> pyM B) h :
  (py_assert true msg ≫= f) h = f tt h.
Proof. reflexivity. Qed.

Lemma alloc_fresh (h : gmap nat ndarray) : h !! fresh (dom h) = None.
Proof. apply not_elem_of_dom, is_fresh. Qed.

(** ** Computations that only allocate *)

Lemma frame_ret {A : Type} (x : A) : frame (mret x).
Proof. intros h l a E. exact E. Qed.

Lemma frame_raise {A : Type} (e : exn) : frame (@raise A e).
Proof. intros h l a E. exact E. Qed.

Lemma frame_bind {A B : Type} (m : pyM A) (f : A -> pyM B) :
  frame m -> (forall x, frame (f x)) -> frame (m ≫= f).
Proof.
  intros Hm Hf h l a E. rewrite bind_unfold.
  specialize (Hm h l a E). destruct (m h) as [[e|x] h1]; simpl in *.
  - exact Hm.
  - apply Hf. exact Hm.
Qed.

Lemma frame_assert b msg : frame (py_assert b msg).
Proof. destruct b; [apply frame_ret|apply frame_raise]. Qed.

Lemma frame_lift {A : Type} (x : exn + A) : frame (lift x).
Proof. destruct x; [apply frame_raise|apply frame_ret]. Qed.

Lemma frame_load l : frame (load l).
Proof.
  intros h l' a E. unfold load. destruct (h !! l); exact E.
Qed.

Lemma frame_alloc a : frame (alloc a).
Proof.
  intros h l a' E. unfold alloc. simpl.
  rewrite lookup_insert_ne; [exact E|].
  intros Heq. subst l. rewrite alloc_fresh in E. discriminate.
Qed.

Create HintDb frame.
#[local] Hint Resolve frame_ret frame_raise frame_assert frame_lift
  frame_load frame_alloc : frame.

Ltac frame_tac :=
  repeat first
    [ apply frame_bind; [|intros ?]
    | match goal with
      | |- frame (let '(_, _) := ?p in _) => destruct p
      | |- frame (if ?b then _ else _) => destruct b
      | |- frame (match ?x with _ => _ end) => destruct x
      end
    | solve [auto with frame] ].

Lemma frame_wanet_displacement `{TorchFunctional} self grid py px target r u :
  frame (wanet_displacement self grid py px target r u).
Proof. unfold wanet_displacement. frame_tac. Qed.

Lemma frame_wanet_relative wfld py px : frame (wanet_relative wfld py px).
Proof. unfold wanet_relative. frame_tac. Qed.

Lemma frame_wanet_normalize wfld py px : frame (wanet_normalize wfld py px).
Proof. unfold wanet_normalize. frame_tac. Qed.

#[local] Hint Resolve frame_wanet_displacement frame_wanet_relative
  frame_wanet_normalize : frame.

Lemma frame_WanetBackdoor_call `{TorchFunctional} self sample r u :
  frame (WanetBackdoor_call self sample r u).
Proof.
  unfold WanetBackdoor_call. destruct sample as [img_ref target].
  apply frame_bind; [auto with frame|]. intros img.
  destruct (shape img) as [|bs [|cs [|py [|px [|? ?]]]]];
    try apply frame_raise.
  destruct (Qle_bool _ _); frame_tac.
Qed.

Lemma wanet_calls_frame `{TorchFunctional} self calls h l a :
  h !! l = Some a -> wanet_calls self calls h !! l = Some a.
Proof.
  revert h. induction calls as [|[[sample r] u] rest IH]; intros h E.
  - exact E.
  - simpl. apply IH. apply frame_WanetBackdoor_call. exact E.
Qed.

(** ** WanetBackdoor: construction *)

Lemma shape_eqb_refl s : shape_eqb s s = true.
Proof. unfold shape_eqb. apply bool_decide_eq_true. reflexivity. Qed.

Lemma shape_eqb_true s1 s2 : shape_eqb s1 s2 = true -> s1 = s2.
Proof. unfold shape_eqb. apply bool_decide_eq_true. Qed.

Lemma control_grid_value_shape g0 ws : shape (control_grid_value g0 ws) = shape g0.
Proof. reflexivity. Qed.

Lemma torch_rand_grid_delivers k u :
  grid_size_ok k ->
  torch_rand_grid k (inr u) = inr (random_array [1; 2; Z.to_nat k; Z.to_nat k] u).
Proof.
  intros [Hk Hn]. unfold torch_rand_grid.
  destruct (k <? 0)%Z eqn:E; [lia|]. rewrite andb_false_r.
  destruct (2 ^ 63 <=? 2 * k * k)%Z eqn:E'; [lia|reflexivity].
Qed.

Lemma torch_rand_grid_negative k rand :
  (- 2 ^ 63 <= k < 0)%Z -> torch_rand_grid k rand = inl RuntimeError.
Proof.
  intros [H1 H2]. unfold torch_rand_grid.
  destruct (- 2 ^ 63 <=? k)%Z eqn:E1; [|lia].
  destruct (k <? 0)%Z eqn:E2; [reflexivity|lia].
Qed.

Lemma torch_rand_grid_raises k e :
  ~ (- 2 ^ 63 <= k < 0)%Z -> torch_rand_grid k (inl e) = inl e.
Proof.
  intros Hk. unfold torch_rand_grid.
  destruct (- 2 ^ 63 <=? k)%Z eqn:E1; destruct (k <? 0)%Z eqn:E2;
    try reflexivity. lia.
Qed.

Lemma torch_rand_grid_refuses k rand :
  ~ grid_size_ok k -> exists e, torch_rand_grid k rand = inl e.
Proof.
  unfold grid_size_ok, torch_rand_grid. intros Hk.
  destruct ((- 2 ^ 63 <=? k) && (k <? 0))%Z; [eexists; reflexivity|].
  destruct rand as [e|u]; [eexists; reflexivity|].
  destruct (k <? 0)%Z eqn:E; [eexists; reflexivity|].
  destruct (2 ^ 63 <=? 2 * k * k)%Z eqn:E'; [eexists; reflexivity|].
  exfalso. apply Hk. lia.
Qed.

(** Construction, step by step: once [torch.rand] has delivered the tensor
    everything up to the probability check goes through, and the check
    decides. *)
Lemma WanetBackdoor_new_unfold pb pn k ws tc u h :
  grid_size_ok k ->
  WanetBackdoor_new pb pn k ws tc (inr u) h
  = let l := fresh (dom h) in
    let h1 := <[l := sampled_grid k ws u]> h in
    if Qle_bool 0 (float64 (pb + pn)) && Qle_bool (float64 (pb + pn)) 1
    then (inr (mk_WanetBackdoor pb pn k ws tc l), h1)
    else (inl (AssertionError "Probability must be between 0 and 1"), h1).
Proof.
  intros Hk. unfold WanetBackdoor_new, Transform_post_init.
  rewrite bind_ret.
  rewrite (torch_rand_grid_delivers _ _ Hk), bind_lift_inr, bind_alloc.
  rewrite (bind_load _ _ _ _ (lookup_insert_eq _ _ _)).
  rewrite control_grid_value_shape. simpl shape.
  rewrite shape_eqb_refl, bind_assert_true.
  cbv zeta. fold (sampled_grid k ws u).
  destruct (Qle_bool 0 (float64 (pb + pn)) && Qle_bool (float64 (pb + pn)) 1);
    reflexivity.
Qed.

(** When [torch.rand] raises, construction raises the same exception and
    nothing has been stored. *)
Lemma WanetBackdoor_new_refused pb pn k ws tc rand h e :
  torch_rand_grid k rand = inl e ->
  WanetBackdoor_new pb pn k ws tc rand h = (inl e, h).
Proof.
  intros Hr. unfold WanetBackdoor_new, Transform_post_init.
  rewrite bind_ret, Hr. reflexivity.
Qed.

Lemma grid_size_ok_dec k : grid_size_ok k \/ ~ grid_size_ok k.
Proof. unfold grid_size_ok. lia. Qed.

(** What a successful construction leaves behind. *)
Lemma WanetBackdoor_new_returns pb pn k ws tc rand h self h' :
  WanetBackdoor_new pb pn k ws tc rand h = (inr self, h') ->
  exists u,
    rand = inr u /\
    grid_size_ok k /\
    self = mk_WanetBackdoor pb pn k ws tc (fresh (dom h)) /\
    h' = <[fresh (dom h) := sampled_grid k ws u]> h /\
    Qle_bool 0 (float64 (pb + pn)) && Qle_bool (float64 (pb + pn)) 1 = true.
Proof.
  intros E. destruct (grid_size_ok_dec k) as [Hk|Hk].
  - destruct rand as [e|u].
    + rewrite (WanetBackdoor_new_refused _ _ _ _ _ _ _ e) in E; [discriminate|].
      apply torch_rand_grid_raises. destruct Hk. lia.
    + exists u. rewrite WanetBackdoor_new_unfold in E by exact Hk. cbv zeta in E.
      destruct (Qle_bool 0 (float64 (pb + pn)) && Qle_bool (float64 (pb + pn)) 1);
        [|discriminate].
      injection E as <- <-. repeat split; try reflexivity; apply Hk.
  - destruct (torch_rand_grid_refuses k rand Hk) as [e He].
    rewrite (WanetBackdoor_new_refused _ _ _ _ _ _ _ e He) in E. discriminate.
Qed.

Lemma Qlt_not_le_bool (x y : Q) : (y < x)%Q -> Qle_bool x y = false.
Proof.
  intros Hlt. destruct (Qle_bool x y) eqn:E; [|reflexivity].
  apply Qle_bool_iff in E. exfalso. exact (Qlt_not_le _ _ Hlt E).
Qed.

Lemma Qle_bool_true (x y : Q) : (x <= y)%Q -> Qle_bool x y = true.
Proof. apply Qle_bool_iff. Qed.

(** ** Shapes and sizes through the tensor operations *)

Lemma length_flat_map_const {A B : Type} (f : A -> list B) (l : list A) (k : nat) :
  (forall x, length (f x) = k) -> length (flat_map f l) = length l * k.
Proof.
  intros Hf. induction l as [|x l IH]; [reflexivity|].
  simpl. rewrite length_app, Hf, IH. reflexivity.
Qed.

Lemma length_view2 (l : list Q) (m : nat) :
  length l = 2 * m -> length (view2 l) = m.
Proof.
  revert l. induction m as [|m IH]; intros l Hl.
  - destruct l; [reflexivity|discriminate].
  - destruct l as [|x [|y l]]; simpl in Hl; try lia.
    simpl. f_equal. apply IH. lia.
Qed.

Lemma length_unview2 (rows : list (Q * Q)) :
  length (unview2 rows) = 2 * length rows.
Proof.
  unfold unview2. rewrite (length_flat_map_const _ _ 2); [lia|reflexivity].
Qed.

Lemma view2_unview2 (rows : list (Q * Q)) : view2 (unview2 rows) = rows.
Proof.
  induction rows as [|[x y] rows IH]; [reflexivity|].
  simpl. f_equal. exact IH.
Qed.

Lemma map_unview2 (f : Q -> Q) (rows : list (Q * Q)) :
  map f (unview2 rows) = unview2 (map (fun p => (f (fst p), f (snd p))) rows).
Proof.
  induction rows as [|[x y] rows IH]; [reflexivity|].
  simpl. f_equal. f_equal. exact IH.
Qed.

Lemma numel_last2 (s : list nat) : numel (s ++ [2]) = 2 * numel s.
Proof.
  induction s as [|n s IH]; [reflexivity|]. simpl. rewrite IH. lia.
Qed.

Lemma wf_tmap f t : wf t -> wf (tmap f t).
Proof. unfold wf. simpl. rewrite length_map. auto. Qed.

Lemma wf_random_array s u : wf (random_array s u).
Proof. unfold wf. simpl. rewrite length_map, length_seq. reflexivity. Qed.

Lemma wf_ndarray_add a b : wf a -> wf b -> shape a = shape b -> wf (ndarray_add a b).
Proof.
  unfold wf. simpl. intros Ha Hb Hs.
  rewrite length_zip_with, Ha, Hb, Hs. lia.
Qed.

(** Broadcasting over a last axis of two keeps the number of elements. *)
Lemma wf_broadcast2 op t v (m : nat) :
  wf t -> numel (shape t) = 2 * m -> wf (broadcast2 op t v).
Proof.
  unfold wf. simpl. intros Ht Hm.
  rewrite length_unview2, length_map, (length_view2 _ m); lia.
Qed.

Lemma length_linspace a b n : length (linspace a b n) = n.
Proof. unfold linspace. rewrite length_map, length_seq. reflexivity. Qed.

Lemma wf_identity_field py px : wf (identity_field py px).
Proof.
  unfold wf, identity_field. simpl.
  rewrite (length_flat_map_const _ _ (px * 2)).
  - rewrite length_linspace. lia.
  - intros y. rewrite (length_flat_map_const _ _ 2); [|reflexivity].
    rewrite length_linspace. reflexivity.
Qed.

Lemma movedim_1_last_dtype t t' : movedim_1_last t = inr t' -> dtype t' = dtype t.
Proof.
  unfold movedim_1_last. destruct (shape t) as [|s0 [|s1 rest]]; try discriminate.
  intros [= <-]. reflexivity.
Qed.

Lemma movedim_1_last_4d t n c h w :
  shape t = [n; c; h; w] ->
  exists t', movedim_1_last t = inr t' /\ shape t' = [n; h; w; c] /\ wf t'.
Proof.
  intros Hs. unfold movedim_1_last. rewrite Hs.
  eexists. split; [reflexivity|]. split; [reflexivity|].
  unfold wf. simpl.
  rewrite (length_flat_map_const _ _ (h * (w * 1) * c)).
  - rewrite length_seq. lia.
  - intros b. rewrite (length_flat_map_const _ _ c).
    + rewrite length_seq. reflexivity.
    + intros r. rewrite length_map, length_seq. reflexivity.
Qed.

Lemma Qmin_list_nonempty (l : list Q) : l <> [] -> exists m, Qmin_list l = Some m.
Proof. destruct l; [congruence|]. intros _. eexists. reflexivity. Qed.

Lemma Qmax_list_nonempty (l : list Q) : l <> [] -> exists m, Qmax_list l = Some m.
Proof. destruct l; [congruence|]. intros _. eexists. reflexivity. Qed.

Lemma view2_nonempty (l : list Q) (m : nat) :
  length l = 2 * m -> 0 < m ->
  map fst (view2 l) <> [] /\ map snd (view2 l) <> [].
Proof.
  intros Hl Hm. pose proof (length_view2 l m Hl) as Hv.
  destruct (view2 l); simpl in *; [lia|]. split; discriminate.
Qed.

(** Reductions over a non-empty field of pairs return. *)
Lemma min0_returns t (m : nat) :
  length (data t) = 2 * m -> 0 < m -> exists v, min0 t = inr v.
Proof.
  intros Hl Hm. destruct (view2_nonempty _ _ Hl Hm) as [H1 H2].
  destruct (Qmin_list_nonempty _ H1) as [a Ea].
  destruct (Qmin_list_nonempty _ H2) as [b Eb].
  exists (a, b). unfold min0, coord_x, coord_y. rewrite Ea, Eb. reflexivity.
Qed.

Lemma max0_returns t (m : nat) :
  length (data t) = 2 * m -> 0 < m -> exists v, max0 t = inr v.
Proof.
  intros Hl Hm. destruct (view2_nonempty _ _ Hl Hm) as [H1 H2].
  destruct (Qmax_list_nonempty _ H1) as [a Ea].
  destruct (Qmax_list_nonempty _ H2) as [b Eb].
  exists (a, b). unfold max0, coord_x, coord_y. rewrite Ea, Eb. reflexivity.
Qed.

(** ** WanetBackdoor: the stages of a triggered call return *)

Lemma numel_field py px : numel [1; py; px; 2] = 2 * (py * px).
Proof. unfold numel. simpl. lia. Qed.

Lemma wanet_displacement_returns `{T : TorchFunctional} (HT : TorchShapes T)
    self grid kh kw py px target r u h :
  dtype grid = Float -> shape grid = [1; 2; kh; kw] -> wf grid ->
  0 < kh -> 0 < kw -> 0 < py -> 0 < px ->
  exists wfld,
    wanet_displacement self grid py px target r u h
    = (inr (wfld, if Qlt_bool (float32 r) (float32 (wn_p_noise self)) then target
                  else wn_target_class self), h) /\
    dtype wfld = Float /\ shape wfld = [1; py; px; 2] /\ wf wfld.
Proof.
  intros Hd Hs Hwf Hkh Hkw Hpy Hpx.
  destruct (interpolate_shape T HT grid 1 2 kh kw py px Hd Hs Hwf Hkh Hkw Hpy Hpx)
    as (up & Eup & Sup & Wup).
  pose proof (interpolate_dtype T HT _ _ _ _ Eup) as Dup.
  destruct (movedim_1_last_4d up 1 2 py px Sup) as (w1 & Ew1 & Sw1 & Ww1).
  pose proof (movedim_1_last_dtype _ _ Ew1) as Dw1.
  unfold wanet_displacement.
  rewrite Eup, bind_lift_inr, Ew1, bind_lift_inr.
  rewrite Sw1, shape_eqb_refl, bind_assert_true.
  destruct (Qlt_bool (float32 r) (float32 (wn_p_noise self))).
  - eexists. split; [reflexivity|]. split; [|split; [exact Sw1|]].
    + cbn [ndarray_add dtype]. rewrite Dw1, Dup, Hd. reflexivity.
    + apply wf_ndarray_add; [exact Ww1| |reflexivity].
      unfold wanet_noise. apply wf_tmap, wf_random_array.
  - exists w1. split; [reflexivity|]. split; [congruence|]. split; assumption.
Qed.

Lemma wanet_relative_returns wfld py px h :
  shape wfld = [1; py; px; 2] -> wf wfld ->
  exists out,
    wanet_relative wfld py px h = (inr out, h) /\
    dtype out = promote Float (dtype wfld) /\
    shape out = [1; py; px; 2] /\ wf out.
Proof.
  intros Hs Hwf. unfold wanet_relative. simpl shape.
  rewrite Hs, shape_eqb_refl, bind_assert_true.
  eexists. split; [reflexivity|]. split; [reflexivity|]. split; [reflexivity|].
  apply wf_ndarray_add.
  - apply wf_identity_field.
  - apply (wf_broadcast2 _ _ _ (py * px)); [exact Hwf|].
    rewrite Hs. apply numel_field.
  - simpl. symmetry. exact Hs.
Qed.

Lemma wanet_normalize_dtype wfld py px h out h' :
  wanet_normalize wfld py px h = (inr out, h') -> dtype out = dtype wfld.
Proof.
  unfold wanet_normalize. intros E.
  apply bind_returns in E as (w_min & h1 & _ & E).
  apply bind_returns in E as (w_max & h2 & _ & E).
  apply bind_returns in E as ([] & h3 & _ & E).
  injection E as <- _. reflexivity.
Qed.

Lemma wanet_normalize_returns wfld py px h :
  shape wfld = [1; py; px; 2] -> wf wfld -> 0 < py -> 0 < px ->
  exists out,
    wanet_normalize wfld py px h = (inr out, h) /\
    shape out = [1; py; px; 2] /\ wf out.
Proof.
  intros Hs Hwf Hpy Hpx.
  assert (Hlen : length (data wfld) = 2 * (py * px)).
  { unfold wf in Hwf. rewrite Hwf, Hs. apply numel_field. }
  assert (Hpos : 0 < py * px) by nia.
  destruct (min0_returns wfld _ Hlen Hpos) as [w_min Emin].
  destruct (max0_returns wfld _ Hlen Hpos) as [w_max Emax].
  unfold wanet_normalize.
  rewrite Emin, bind_lift_inr, Emax, bind_lift_inr.
  simpl shape. rewrite Hs, shape_eqb_refl, bind_assert_true.
  eexists. split; [reflexivity|]. split; [simpl; exact Hs|].
  apply wf_tmap.
  apply (wf_broadcast2 _ _ _ (py * px)); [|simpl; rewrite Hs; apply numel_field].
  apply wf_tmap.
  apply (wf_broadcast2 _ _ _ (py * px)); [exact Hwf|].
  rewrite Hs. apply numel_field.
Qed.

(** A triggered call on a float32 batch of one returns, given the
    library's documented shapes, a non-empty image and a non-empty float32
    control grid. *)
Lemma WanetBackdoor_call_triggered_returns `{T : TorchFunctional}
    (HT : TorchShapes T) self img_ref target r u h img cs py px grid k :
  h !! img_ref = Some img ->
  dtype img = Float -> shape img = [1; cs; py; px] -> wf img ->
  0 < py -> 0 < px ->
  h !! wn_control_grid self = Some grid ->
  dtype grid = Float -> shape grid = [1; 2; k; k] -> wf grid -> 0 < k ->
  Qle_bool (float32 r)
           (float32 (float64 (wn_p_backdoor self + wn_p_noise self))) = true ->
  exists img',
    WanetBackdoor_call self (img_ref, target) r u h
    = (inr (fresh (dom h),
            if Qlt_bool (float32 r) (float32 (wn_p_noise self))
            then target else wn_target_class self),
       <[fresh (dom h) := img']> h) /\
    dtype img' = Float /\ shape img' = [1; cs; py; px].
Proof.
  intros Eimg Dimg Simg Wimg Hpy Hpx Egrid Dgrid Sgrid Wgrid Hk Hr.
  destruct (wanet_displacement_returns HT self grid k k py px target r u h
              Dgrid Sgrid Wgrid Hk Hk Hpy Hpx) as (w1 & E1 & D1 & S1 & W1).
  destruct (wanet_relative_returns w1 py px h S1 W1) as (w2 & E2 & D2 & S2 & W2).
  destruct (wanet_normalize_returns w2 py px h S2 W2 Hpy Hpx)
    as (w3 & E3 & S3 & W3).
  pose proof (wanet_normalize_dtype _ _ _ _ _ _ E3) as D3.
  assert (Dw3 : dtype w3 = Float) by (rewrite D3, D2, D1; reflexivity).
  destruct (grid_sample_shape T HT img w3 1 cs py px py px Dimg Dw3 Simg Wimg S3 W3)
    as (out & Eout & Dout & Sout & Wout).
  exists out. split; [|split; [exact Dout|exact Sout]].
  unfold WanetBackdoor_call.
  rewrite (bind_load _ _ _ _ Eimg), Simg, Hr.
  rewrite (bind_load _ _ _ _ Egrid).
  rewrite (bind_inr _ _ _ _ _ E1).
  rewrite (bind_inr _ _ _ _ _ E2).
  rewrite (bind_inr _ _ _ _ _ E3).
  rewrite Eout, bind_lift_inr, Sout, shape_eqb_refl, bind_assert_true.
  rewrite bind_alloc. reflexivity.
Qed.

(** ** Computations that leave the store as it is *)

Lemma heap_pure_ret {A : Type} (x : A) : heap_pure (mret x).
Proof. intros h. reflexivity. Qed.

Lemma heap_pure_raise {A : Type} (e : exn) : heap_pure (@raise A e).
Proof. intros h. reflexivity. Qed.

Lemma heap_pure_bind {A B : Type} (m : pyM A) (f : A -> pyM B) :
  heap_pure m -> (forall x, heap_pure (f x)) -> heap_pure (m ≫= f).
Proof.
  intros Hm Hf h. rewrite bind_unfold. specialize (Hm h).
  destruct (m h) as [[e|x] h1]; simpl in *; subst h1; [reflexivity|apply Hf].
Qed.

Lemma heap_pure_assert b msg : heap_pure (py_assert b msg).
Proof. destruct b; [apply heap_pure_ret|apply heap_pure_raise]. Qed.

Lemma heap_pure_lift {A : Type} (x : exn + A) : heap_pure (lift x).
Proof. destruct x; [apply heap_pure_raise|apply heap_pure_ret]. Qed.

Lemma heap_pure_load l : heap_pure (load l).
Proof. intros h. unfold load. destruct (h !! l); reflexivity. Qed.

Create HintDb heap_pure.
#[local] Hint Resolve heap_pure_ret heap_pure_raise heap_pure_assert
  heap_pure_lift heap_pure_load : heap_pure.

Ltac heap_pure_tac :=
  repeat first
    [ apply heap_pure_bind; [|intros ?]
    | match goal with
      | |- heap_pure (if ?b then _ else _) => destruct b
      end
    | solve [auto with heap_pure] ].

Lemma heap_pure_wanet_displacement `{TorchFunctional} self grid py px target r u :
  heap_pure (wanet_displacement self grid py px target r u).
Proof. unfold wanet_displacement. heap_pure_tac. Qed.

Lemma heap_pure_wanet_relative wfld py px : heap_pure (wanet_relative wfld py px).
Proof. unfold wanet_relative. heap_pure_tac. Qed.

Lemma heap_pure_wanet_normalize wfld py px : heap_pure (wanet_normalize wfld py px).
Proof. unfold wanet_normalize. heap_pure_tac. Qed.

Lemma heap_pure_returns {A : Type} (m : pyM A) h x h' :
  heap_pure m -> m h = (inr x, h') -> h' = h.
Proof. intros Hm E. specialize (Hm h). rewrite E in Hm. exact Hm. Qed.

(** ** WanetBackdoor: what a returning call went through *)

Lemma wanet_displacement_inv `{TorchFunctional} self grid py px target r u h wfld t h' :
  wanet_displacement self grid py px target r u h = (inr (wfld, t), h') ->
  exists up base,
    F_interpolate grid py px = inr up /\
    movedim_1_last up = inr base /\
    shape base = [1; py; px; 2] /\
    (wfld, t) = if Qlt_bool (float32 r) (float32 (wn_p_noise self))
                then (ndarray_add base (wanet_noise base u), target)
                else (base, wn_target_class self).
Proof.
  unfold wanet_displacement. intros E.
  apply bind_returns in E as (up & h1 & E1 & E).
  apply lift_returns in E1 as [E1 ->].
  apply bind_returns in E as (base & h1 & E2 & E).
  apply lift_returns in E2 as [E2 ->].
  apply bind_returns in E as ([] & h1 & E3 & E).
  apply assert_returns in E3 as [E3 ->].
  apply shape_eqb_true in E3.
  exists up, base. repeat split; try assumption.
  destruct (Qlt_bool (float32 r) (float32 (wn_p_noise self)));
    injection E as <- <- _; reflexivity.
Qed.

Lemma wanet_normalize_shape wfld py px h out h' :
  wanet_normalize wfld py px h = (inr out, h') -> shape out = shape wfld.
Proof.
  unfold wanet_normalize. intros E.
  apply bind_returns in E as (w_min & h1 & _ & E).
  apply bind_returns in E as (w_max & h2 & _ & E).
  apply bind_returns in E as ([] & h3 & _ & E).
  injection E as <- _. reflexivity.
Qed.

Lemma WanetBackdoor_call_inv `{TorchFunctional} self img_ref target r u h out t h' :
  WanetBackdoor_call self (img_ref, target) r u h = (inr (out, t), h') ->
  exists img bs cs py px,
    h !! img_ref = Some img /\ shape img = [bs; cs; py; px] /\
    out = fresh (dom h) /\
    ((Qle_bool (float32 r)
               (float32 (float64 (wn_p_backdoor self + wn_p_noise self))) = false /\
      t = target /\ h' = <[out := img]> h)
     \/
     (Qle_bool (float32 r)
               (float32 (float64 (wn_p_backdoor self + wn_p_noise self))) = true /\
      exists grid wfld w2 w3 img',
        h !! wn_control_grid self = Some grid /\
        wanet_displacement self grid py px target r u h = (inr (wfld, t), h) /\
        wanet_relative wfld py px h = (inr w2, h) /\
        wanet_normalize w2 py px h = (inr w3, h) /\
        F_grid_sample img w3 = inr img' /\
        shape img' = [bs; cs; py; px] /\
        h' = <[out := img']> h)).
Proof.
  unfold WanetBackdoor_call. intros E.
  apply bind_returns in E as (img & h1 & E1 & E).
  apply load_returns in E1 as [Eimg ->].
  destruct (shape img) as [|bs [|cs [|py [|px [|? ?]]]]] eqn:Simg;
    try discriminate.
  exists img, bs, cs, py, px. split; [exact Eimg|]. split; [exact Simg|].
  destruct (Qle_bool (float32 r)
              (float32 (float64 (wn_p_backdoor self + wn_p_noise self)))) eqn:Hr.
  - apply bind_returns in E as (grid & h1 & E1 & E).
    apply load_returns in E1 as [Egrid ->].
    apply bind_returns in E as ([wfld t1] & h1 & E1 & E).
    pose proof (heap_pure_returns _ _ _ _
                  (heap_pure_wanet_displacement _ _ _ _ _ _ _) E1) as ->.
    apply bind_returns in E as (w2 & h1 & E2 & E).
    pose proof (heap_pure_returns _ _ _ _
                  (heap_pure_wanet_relative _ _ _) E2) as ->.
    apply bind_returns in E as (w3 & h1 & E3 & E).
    pose proof (heap_pure_returns _ _ _ _
                  (heap_pure_wanet_normalize _ _ _) E3) as ->.
    apply bind_returns in E as (img' & h1 & E4 & E).
    apply lift_returns in E4 as [E4 ->].
    apply bind_returns in E as ([] & h1 & E5 & E).
    apply assert_returns in E5 as [E5 ->].
    apply shape_eqb_true in E5.
    rewrite bind_alloc in E. injection E as <- <- <-.
    split; [reflexivity|]. right. split; [reflexivity|].
    exists grid, wfld, w2, w3, img'. repeat split; assumption.
  - rewrite bind_alloc in E. injection E as <- <- <-.
    split; [reflexivity|]. left. repeat split; reflexivity.
Qed.

(** ** The reference implementation has the documented shapes *)

Lemma length_nested4 (f : nat -> nat -> nat -> nat -> Q) (n c h w : nat) :
  length (flat_map (fun b =>
            flat_map (fun ch =>
              flat_map (fun i => map (fun j => f b ch i j) (seq 0 w)) (seq 0 h))
              (seq 0 c))
            (seq 0 n))
  = n * (c * (h * (w * 1))).
Proof.
  rewrite (length_flat_map_const _ _ (c * (h * w))).
  - rewrite length_seq. lia.
  - intros b. rewrite (length_flat_map_const _ _ (h * w)).
    + rewrite length_seq. reflexivity.
    + intros ch. rewrite (length_flat_map_const _ _ w).
      * rewrite length_seq. reflexivity.
      * intros i. rewrite length_map, length_seq. reflexivity.
Qed.

Lemma scalar_type_eqb_eq d1 d2 : scalar_type_eqb d1 d2 = true <-> d1 = d2.
Proof. destruct d1, d2; simpl; split; congruence. Qed.

Lemma nearest_shapes : TorchShapes nearest_torch.
Proof.
  split.
  - intros t n c h w py px _ Hs _ Hh Hw Hpy Hpx. simpl.
    unfold nearest_interpolate. rewrite Hs.
    destruct (h =? 0) eqn:E1; [apply Nat.eqb_eq in E1; lia|].
    destruct (w =? 0) eqn:E2; [apply Nat.eqb_eq in E2; lia|].
    destruct (py =? 0) eqn:E3; [apply Nat.eqb_eq in E3; lia|].
    destruct (px =? 0) eqn:E4; [apply Nat.eqb_eq in E4; lia|].
    simpl orb. cbv iota.
    eexists. split; [reflexivity|]. split; [reflexivity|].
    unfold wf. cbn [data shape]. rewrite length_nested4. reflexivity.
  - intros t py px t'. simpl. unfold nearest_interpolate.
    destruct (shape t) as [|n [|c [|h [|w [|? ?]]]]]; try discriminate.
    destruct ((h =? 0) || (w =? 0) || (py =? 0) || (px =? 0)); [discriminate|].
    intros [= <-]. reflexivity.
  - intros t g n c h w ho wo Dt Dg Hs _ Hg _. simpl.
    unfold nearest_grid_sample. rewrite Dt, Dg, Hs, Hg, Nat.eqb_refl.
    cbn [negb scalar_type_eqb]. cbv iota.
    eexists. split; [reflexivity|]. split; [reflexivity|]. split; [reflexivity|].
    unfold wf. cbn [data shape]. rewrite length_nested4. reflexivity.
  - intros t g n c h w n' ho wo Hs Hg Hn. simpl.
    unfold nearest_grid_sample.
    destruct (negb (scalar_type_eqb (dtype t) (dtype g))); [reflexivity|].
    rewrite Hs, Hg. apply Nat.eqb_neq in Hn. rewrite Hn. reflexivity.
  - intros t g Hd. simpl. unfold nearest_grid_sample.
    destruct (scalar_type_eqb (dtype t) (dtype g)) eqn:E; [|reflexivity].
    apply scalar_type_eqb_eq in E. contradiction.
Qed.

Lemma demo_draws_unit k : unit_draw (demo_draws k).
Proof.
  unfold unit_draw, demo_draws.
  pose proof (Nat.mod_upper_bound (k * 7 + 3) 10 ltac:(lia)) as Hm.
  unfold Qle, Qlt. simpl. lia.
Qed.

(** ** Calls that raise leave the store as it was *)

Lemma heap_pure_raises_clean {A : Type} (m : pyM A) :
  heap_pure m -> raises_clean m.
Proof. intros Hm h e h' E. specialize (Hm h). rewrite E in Hm. exact Hm. Qed.

Lemma raises_clean_bind {A B : Type} (m : pyM A) (f : A -> pyM B) :
  heap_pure m -> (forall x, raises_clean (f x)) -> raises_clean (m ≫= f).
Proof.
  intros Hm Hf h e h'. rewrite bind_unfold. specialize (Hm h).
  destruct (m h) as [[e1|x] h1]; simpl in Hm; subst h1.
  - intros [= _ <-]. reflexivity.
  - apply Hf.
Qed.

Lemma raises_clean_alloc_ret {B : Type} (a : ndarray) (g : nat -> B) :
  raises_clean (alloc a ≫= fun out => mret (g out)).
Proof. intros h e h'. rewrite bind_alloc. discriminate. Qed.

Lemma raises_clean_WanetBackdoor_call `{TorchFunctional} self sample r u :
  raises_clean (WanetBackdoor_call self sample r u).
Proof.
  unfold WanetBackdoor_call. destruct sample as [img_ref target].
  apply raises_clean_bind; [apply heap_pure_load|]. intros img.
  destruct (shape img) as [|bs [|cs [|py [|px [|? ?]]]]];
    try (apply heap_pure_raises_clean, heap_pure_raise).
  destruct (Qle_bool _ _).
  - apply raises_clean_bind; [apply heap_pure_load|]. intros grid.
    apply raises_clean_bind; [apply heap_pure_wanet_displacement|].
    intros [wfld t].
    apply raises_clean_bind; [apply heap_pure_wanet_relative|]. intros w2.
    apply raises_clean_bind; [apply heap_pure_wanet_normalize|]. intros w3.
    apply raises_clean_bind; [apply heap_pure_lift|]. intros img'.
    apply raises_clean_bind; [apply heap_pure_assert|]. intros [].
    apply (raises_clean_alloc_ret img' (fun out => (out, t))).
  - apply (raises_clean_alloc_ret img (fun out => (out, target))).
Qed.

(** ** WanetBackdoor: the control grid *)

(** C3.  The control grid stored by a successful construction has shape
    [(1, 2, control_grid_width, control_grid_width)], and no call changes it:
    after any run of calls on the instance, and after one more call with any
    sample and any draws (returning or raising), the tensor read through
    [self.control_grid] is the tensor construction stored. *)
Theorem wanet_control_grid_fixed `{TorchFunctional} pb pn k ws tc rand h self h0 :
  WanetBackdoor_new pb pn k ws tc rand h = (inr self, h0) ->
  exists g,
    h0 !! wn_control_grid self = Some g /\
    map Z.of_nat (shape g) = [1; 2; k; k]%Z /\
    forall calls sample r v,
      wanet_calls self calls h0 !! wn_control_grid self = Some g /\
      snd (WanetBackdoor_call self sample r v (wanet_calls self calls h0))
        !! wn_control_grid self = Some g.
Proof.
  intros E. apply WanetBackdoor_new_returns in E as (u & -> & [Hk _] & -> & -> & _).
  exists (sampled_grid k ws u). simpl wn_control_grid.
  assert (Hg : <[fresh (dom h) := sampled_grid k ws u]> h !! fresh (dom h)
               = Some (sampled_grid k ws u)) by apply lookup_insert_eq.
  split; [exact Hg|]. split.
  - simpl. rewrite Z2Nat.id by exact Hk. reflexivity.
  - intros calls sample r v.
    pose proof (wanet_calls_frame
                  (mk_WanetBackdoor pb pn k ws tc (fresh (dom h)))
                  calls _ _ _ Hg) as Hc.
    split; [exact Hc|]. apply frame_WanetBackdoor_call. exact Hc.
Qed.

Lemma wanet_control_grid_fixed_witness :
  exists g,
    demo_grid_heap !! wn_control_grid demo_wanet = Some g /\
    map Z.of_nat (shape g) = [1; 2; 2; 2]%Z /\
    forall calls sample r v,
      @wanet_calls nearest_torch demo_wanet calls demo_grid_heap
        !! wn_control_grid demo_wanet = Some g /\
      snd (@WanetBackdoor_call nearest_torch demo_wanet sample r v
             (@wanet_calls nearest_torch demo_wanet calls demo_grid_heap))
        !! wn_control_grid demo_wanet = Some g.
Proof.
  apply (@wanet_control_grid_fixed nearest_torch
           (1#2) (1#4) 2 (1#2) 3 (inr demo_draws) ∅ demo_wanet demo_grid_heap).
  vm_compute. reflexivity.
Defined.

(** ** WanetBackdoor: the check of the probabilities *)

Lemma float64_0 : float64 0 = 0%Q.
Proof. reflexivity. Qed.

Lemma float64_1 : (float64 1 == 1)%Q.
Proof. vm_compute. reflexivity. Qed.

(** A sum in [[0, 1]] is still in [[0, 1]] once rounded. *)
Lemma float64_unit_interval (s : Q) :
  (0 <= s <= 1)%Q -> (0 <= float64 s <= 1)%Q.
Proof.
  intros [H0 H1]. split.
  - rewrite <- float64_0. apply float64_mono. exact H0.
  - rewrite <- float64_1. apply float64_mono. exact H1.
Qed.

(** C4, as the code has it.  Construction checks the sum of the two
    probabilities itself, on the sum as Python computes it, in float64.
    Once [torch.rand] has delivered the control grid:
    - a sum that float64 arithmetic puts in [[0, 1]] returns the instance;
    - so does every pair whose exact sum is in [[0, 1]], rounding being
      monotone;
    - a sum that float64 arithmetic puts above [1] raises, from
      [__post_init__] and before any call, the assertion failure
      "Probability must be between 0 and 1" (an [AssertionError]: the
      source has no other error class). *)
Theorem wanet_new_checks_probability_sum pb pn k ws tc u h :
  grid_size_ok k ->
  ((0 <= float64 (pb + pn) <= 1)%Q ->
   exists l h',
     WanetBackdoor_new pb pn k ws tc (inr u) h
     = (inr (mk_WanetBackdoor pb pn k ws tc l), h')) /\
  ((0 <= pb + pn <= 1)%Q ->
   exists l h',
     WanetBackdoor_new pb pn k ws tc (inr u) h
     = (inr (mk_WanetBackdoor pb pn k ws tc l), h')) /\
  ((1 < float64 (pb + pn))%Q ->
   exists h',
     WanetBackdoor_new pb pn k ws tc (inr u) h
     = (inl (AssertionError "Probability must be between 0 and 1"), h')).
Proof.
  intros Hk. rewrite WanetBackdoor_new_unfold by exact Hk. cbv zeta.
  assert (Hin : (0 <= float64 (pb + pn) <= 1)%Q ->
                exists l h',
                  (if Qle_bool 0 (float64 (pb + pn))
                      && Qle_bool (float64 (pb + pn)) 1
                   then (inr (mk_WanetBackdoor pb pn k ws tc (fresh (dom h))),
                         <[fresh (dom h) := sampled_grid k ws u]> h)
                   else (inl (AssertionError "Probability must be between 0 and 1"),
                         <[fresh (dom h) := sampled_grid k ws u]> h))
                  = (inr (mk_WanetBackdoor pb pn k ws tc l), h')).
  { intros [H0 H1].
    rewrite (Qle_bool_true _ _ H0), (Qle_bool_true _ _ H1). simpl.
    eexists _, _. reflexivity. }
  split; [exact Hin|]. split.
  - intros Hs. apply Hin, float64_unit_interval, Hs.
  - intros H1. rewrite (Qlt_not_le_bool _ _ H1), andb_false_r.
    eexists. reflexivity.
Qed.

Lemma wanet_new_checks_probability_sum_witness :
  exists l h',
    WanetBackdoor_new (1#2) (1#4) 2 (1#2) 3 (inr demo_draws) ∅
    = (inr (mk_WanetBackdoor (1#2) (1#4) 2 (1#2) 3 l), h').
Proof.
  apply (wanet_new_checks_probability_sum (1#2) (1#4) 2 (1#2) 3 demo_draws ∅).
  - vm_compute. split; [discriminate|reflexivity].
  - vm_compute. split; discriminate.
Defined.

(** C4 as the specification words it fails: [0.5 + 0.5000000000000001] is
    above [1], and construction returns the instance, because the sum
    rounds to [1.0]. *)
Lemma wanet_new_accepts_sum_above_one :
  (1 < (1#2) + double_half_up)%Q /\
  fst (WanetBackdoor_new (1#2) double_half_up 2 (1#2) 3 (inr demo_draws) ∅)
  = inr (mk_WanetBackdoor (1#2) double_half_up 2 (1#2) 3 0).
Proof. split; vm_compute; reflexivity. Qed.

(** The two outcomes of C4 on concrete arguments. *)
Example wanet_new_accepts :
  fst (WanetBackdoor_new (1#2) (1#4) 2 (1#2) 3 (inr demo_draws) ∅) = inr demo_wanet.
Proof. vm_compute. reflexivity. Qed.

Example wanet_new_rejects :
  fst (WanetBackdoor_new (1#2) (3#4) 2 (1#2) 3 (inr demo_draws) ∅)
  = inl (AssertionError "Probability must be between 0 and 1").
Proof. vm_compute. reflexivity. Qed.

(** ** WanetBackdoor: the call *)

(** C5, as the code has it.  On a four-dimensional image, a draw above
    the threshold as the code compares them (the sum
    [p_backdoor + p_noise] computed in float64 and rounded to float32, the
    precision of the draw) makes the call the identity: it returns, the
    array it returns has the element type, the shape and the elements of
    the input, and the label is the input label.  (The array returned is a
    new object; the input object is still in the store, unchanged.) *)
Theorem wanet_identity_branch `{TorchFunctional}
    self img_ref target r u h img bs cs py px :
  h !! img_ref = Some img ->
  shape img = [bs; cs; py; px] ->
  (float32 (float64 (wn_p_backdoor self + wn_p_noise self)) < float32 r)%Q ->
  exists out h',
    WanetBackdoor_call self (img_ref, target) r u h = (inr (out, target), h') /\
    h' !! out = Some img /\
    h' !! img_ref = Some img.
Proof.
  intros Eimg Simg Hr. apply Qlt_not_le_bool in Hr.
  exists (fresh (dom h)), (<[fresh (dom h) := img]> h).
  split; [|split].
  - unfold WanetBackdoor_call.
    rewrite (bind_load _ _ _ _ Eimg), Simg, Hr, bind_alloc. reflexivity.
  - apply lookup_insert_eq.
  - apply (frame_alloc img h). exact Eimg.
Qed.

Lemma wanet_identity_branch_witness :
  exists out h',
    @WanetBackdoor_call nearest_torch demo_wanet (1, 9%Z) (9#10) demo_draws demo_heap
    = (inr (out, 9%Z), h') /\
    h' !! out = Some demo_img /\
    h' !! 1 = Some demo_img.
Proof.
  apply (@wanet_identity_branch nearest_torch demo_wanet 1 9%Z (9#10)
           demo_draws demo_heap demo_img 1 1 2 3).
  - vm_compute. reflexivity.
  - reflexivity.
  - vm_compute. reflexivity.
Defined.

(** C5 as the specification words it fails: with [p_backdoor = 0.6] and
    [p_noise = 0], the float32 nearest to [0.6] is a draw above
    [p_backdoor + p_noise], and the call is not the identity: the label 9
    comes back as the target class 3.  Rounded to float32 the threshold is
    that very draw. *)
Lemma wanet_draw_above_sum_fires :
  (wn_p_backdoor demo_wanet_0_6 + wn_p_noise demo_wanet_0_6 < single_0_6)%Q /\
  fst (@WanetBackdoor_call nearest_torch demo_wanet_0_6 (1, 9%Z) single_0_6
         demo_draws demo_heap)
  = inr (2, 3%Z).
Proof. split; vm_compute; reflexivity. Qed.

Lemma movedim_1_last_shape_inv up base py px :
  movedim_1_last up = inr base -> shape base = [1; py; px; 2] ->
  shape up = [1; 2; py; px].
Proof.
  unfold movedim_1_last. intros Ebase Sbase.
  destruct (shape up) as [|s0 [|s1 rest]]; try discriminate.
  injection Ebase as <-. cbn [shape] in Sbase.
  injection Sbase as -> Hrest.
  change [py; px; 2] with ([py; px] ++ [2]) in Hrest.
  apply app_inj_tail in Hrest as [-> ->]. reflexivity.
Qed.

Lemma lookup_random_data (u : nat -> Q) (n k : nat) :
  k < n -> map u (seq 0 n) !! k = Some (u k).
Proof.
  intros Hk. rewrite list_lookup_fmap, lookup_seq_lt by exact Hk. reflexivity.
Qed.

(** Adding the noise of line 123, entry by entry. *)
Lemma wanet_noise_entries base u :
  wf base ->
  length (data (ndarray_add base (wanet_noise base u))) = length (data base) /\
  forall k x, data base !! k = Some x ->
    data (ndarray_add base (wanet_noise base u)) !! k
    = Some (x + (2 * u k - 1))%Q.
Proof.
  intros Hwf. unfold wf in Hwf. split.
  - cbn [ndarray_add wanet_noise tmap random_array data shape].
    rewrite length_zip_with, !length_map, length_seq. lia.
  - intros k x Ek.
    cbn [ndarray_add wanet_noise tmap random_array data shape].
    rewrite lookup_zip_with, Ek. cbn.
    rewrite list_lookup_fmap, lookup_random_data; [reflexivity|].
    apply lookup_lt_Some in Ek. lia.
Qed.

(** C6, as the code has it.  A triggered call that returns went through
    the displacement stage with the stored control grid, interpolated to
    the spatial size of the image; there, with [base] the interpolated
    grid moved to channel-last layout, and the draw compared with
    [p_noise] in float32:
    - if the draw is below [p_noise] the label returned is the input label
      and the displacement field is [base] plus noise: it has the shape
      and the number of entries of [base], and its entry [k] is the entry
      [k] of [base] plus [2 * u_k - 1], a value in [[-1, 1]], [u_k] being
      the [k]-th draw of [torch.rand_like];
    - otherwise the label returned is [target_class] and the field is
      [base] itself. *)
Theorem wanet_triggered_label_and_noise `{TorchFunctional}
    self img_ref target r u h out t h' :
  (float32 r <= float32 (float64 (wn_p_backdoor self + wn_p_noise self)))%Q ->
  (forall k, unit_draw (u k)) ->
  WanetBackdoor_call self (img_ref, target) r u h = (inr (out, t), h') ->
  exists img bs cs py px grid up base wfld,
    h !! img_ref = Some img /\ shape img = [bs; cs; py; px] /\
    h !! wn_control_grid self = Some grid /\
    F_interpolate grid py px = inr up /\
    movedim_1_last up = inr base /\
    wanet_displacement self grid py px target r u h = (inr (wfld, t), h) /\
    ((float32 r < float32 (wn_p_noise self))%Q ->
       t = target /\
       shape wfld = shape base /\
       length (data wfld) = length (data base) /\
       forall k x, data base !! k = Some x ->
         data wfld !! k = Some (x + (2 * u k - 1))%Q /\
         (-1 <= 2 * u k - 1 <= 1)%Q) /\
    (~ (float32 r < float32 (wn_p_noise self))%Q ->
       t = wn_target_class self /\ wfld = base).
Proof.
  intros Hr Hu E.
  apply WanetBackdoor_call_inv in E
    as (img & bs & cs & py & px & Eimg & Simg & -> & [(Hf & _)|(_ & Htrig)]).
  { apply Qle_bool_true in Hr. congruence. }
  destruct Htrig as (grid & wfld & w2 & w3 & img' & Egrid & Ed & _).
  destruct (wanet_displacement_inv _ _ _ _ _ _ _ _ _ _ _ Ed)
    as (up & base & Eup & Ebase & Sbase & Ewt).
  exists img, bs, cs, py, px, grid, up, base, wfld.
  repeat (split; [assumption|]).
  assert (Wbase : wf base).
  { pose proof (movedim_1_last_shape_inv _ _ _ _ Ebase Sbase) as Sup.
    destruct (movedim_1_last_4d up 1 2 py px Sup) as (b' & Eb' & _ & Wb').
    congruence. }
  unfold Qlt_bool in Ewt. split.
  - intros Hlt. rewrite (Qlt_not_le_bool _ _ Hlt) in Ewt. simpl in Ewt.
    injection Ewt as -> ->.
    destruct (wanet_noise_entries base u Wbase) as [Hlen Hent].
    split; [reflexivity|]. split; [reflexivity|]. split; [exact Hlen|].
    intros k x Ek. split; [apply Hent, Ek|].
    destruct (Hu k) as [H0 H1]. split; lra.
  - intros Hge. apply Qnot_lt_le in Hge.
    rewrite (Qle_bool_true _ _ Hge) in Ewt. simpl in Ewt.
    injection Ewt as -> ->. split; reflexivity.
Qed.

Lemma wanet_triggered_label_and_noise_witness :
  exists img bs cs py px grid up base wfld,
    demo_heap !! 1 = Some img /\ shape img = [bs; cs; py; px] /\
    demo_heap !! wn_control_grid demo_wanet = Some grid /\
    nearest_interpolate grid py px = inr up /\
    movedim_1_last up = inr base /\
    @wanet_displacement nearest_torch demo_wanet grid py px 9%Z (1#10)
       demo_draws demo_heap = (inr (wfld, 9%Z), demo_heap) /\
    shape wfld = shape base /\
    length (data wfld) = length (data base) /\
    forall k x, data base !! k = Some x ->
      data wfld !! k = Some (x + (2 * demo_draws k - 1))%Q /\
      (-1 <= 2 * demo_draws k - 1 <= 1)%Q.
Proof.
  destruct (@wanet_triggered_label_and_noise nearest_torch demo_wanet 1 9%Z
              (1#10) demo_draws demo_heap 2 9%Z
              (snd (@WanetBackdoor_call nearest_torch demo_wanet (1, 9%Z) (1#10)
                      demo_draws demo_heap)))
    as (img & bs & cs & py & px & grid & up & base & wfld
        & Eimg & Simg & Egrid & Eup & Ebase & Ed & Hnoise & _).
  - vm_compute. discriminate.
  - exact demo_draws_unit.
  - vm_compute. reflexivity.
  - exists img, bs, cs, py, px, grid, up, base, wfld.
    repeat (split; [assumption|]).
    apply Hnoise. vm_compute. reflexivity.
Defined.

(** C6 as the specification words it fails: with [p_noise = 0.9] the
    float32 nearest to [0.9] is a draw below [p_noise] (and below
    [p_backdoor + p_noise]), and the label is overwritten all the same:
    the label 9 comes back as the target class 3.  Rounded to float32,
    [p_noise] is that very draw. *)
Lemma wanet_draw_below_p_noise_overwrites :
  (single_0_9 <= wn_p_backdoor demo_wanet_0_9 + wn_p_noise demo_wanet_0_9)%Q /\
  (single_0_9 < wn_p_noise demo_wanet_0_9)%Q /\
  fst (@WanetBackdoor_call nearest_torch demo_wanet_0_9 (1, 9%Z) single_0_9
         demo_draws demo_heap)
  = inr (2, 3%Z).
Proof. split; [|split]; vm_compute; try reflexivity. discriminate. Qed.

(** ** WanetBackdoor: the field handed to [F.grid_sample] *)

Lemma wanet_relative_dtype wfld py px h out h' :
  wanet_relative wfld py px h = (inr out, h') ->
  dtype out = promote Float (dtype wfld).
Proof.
  unfold wanet_relative. intros E.
  apply bind_returns in E as ([] & h1 & _ & E).
  injection E as <- _. reflexivity.
Qed.

Lemma wanet_normalize_field_shape wfld py px h out h' :
  wanet_normalize wfld py px h = (inr out, h') -> shape out = [1; py; px; 2].
Proof.
  unfold wanet_normalize. intros E.
  apply bind_returns in E as (w_min & h1 & _ & E).
  apply bind_returns in E as (w_max & h2 & _ & E).
  apply bind_returns in E as ([] & h3 & E3 & E).
  apply assert_returns in E3 as [E3 _]. apply shape_eqb_true in E3.
  injection E as <- _. exact E3.
Qed.

Lemma wanet_displacement_dtype `{T : TorchFunctional} (HT : TorchShapes T)
    self grid py px target r u h wfld t h' :
  dtype grid = Float ->
  wanet_displacement self grid py px target r u h = (inr (wfld, t), h') ->
  dtype wfld = Float.
Proof.
  intros Dgrid E.
  apply wanet_displacement_inv in E as (up & base & Eup & Ebase & _ & Ewt).
  pose proof (interpolate_dtype T HT _ _ _ _ Eup) as Dup.
  pose proof (movedim_1_last_dtype _ _ Ebase) as Dbase.
  destruct (Qlt_bool _ _); injection Ewt as -> _.
  - cbn [ndarray_add dtype]. rewrite Dbase, Dup, Dgrid. reflexivity.
  - congruence.
Qed.

(** The field a triggered call samples the image on: one field of shape
    [(1, py, px, 2)], whatever the batch size of the image, and float32
    when the control grid is. *)
Lemma WanetBackdoor_call_field `{T : TorchFunctional} (HT : TorchShapes T)
    self img_ref target r u h out t h' :
  Qle_bool (float32 r)
           (float32 (float64 (wn_p_backdoor self + wn_p_noise self))) = true ->
  WanetBackdoor_call self (img_ref, target) r u h = (inr (out, t), h') ->
  exists img bs cs py px grid w3 img',
    h !! img_ref = Some img /\ shape img = [bs; cs; py; px] /\
    h !! wn_control_grid self = Some grid /\
    shape w3 = [1; py; px; 2] /\
    (dtype grid = Float -> dtype w3 = Float) /\
    F_grid_sample img w3 = inr img'.
Proof.
  intros Hr E.
  apply WanetBackdoor_call_inv in E
    as (img & bs & cs & py & px & Eimg & Simg & -> & [(Hf & _)|(_ & Htrig)]);
    [congruence|].
  destruct Htrig as (grid & wfld & w2 & w3 & img' & Egrid & Ed & E2 & E3 & E4 & _).
  exists img, bs, cs, py, px, grid, w3, img'.
  repeat (split; [assumption|]).
  split; [exact (wanet_normalize_field_shape _ _ _ _ _ _ E3)|].
  split; [|exact E4].
  intros Dgrid.
  rewrite (wanet_normalize_dtype _ _ _ _ _ _ E3).
  rewrite (wanet_relative_dtype _ _ _ _ _ _ E2).
  rewrite (wanet_displacement_dtype HT _ _ _ _ _ _ _ _ _ _ _ Dgrid Ed).
  reflexivity.
Qed.

(** C8, at the inputs where the code departs from it.  On an image of
    shape [(bs, cs, py, px)]:
    - an image the call returns has exactly the shape [(bs, cs, py, px)],
      and in the identity branch the call does return;
    - in the triggered branch the image is sampled on a single field of
      shape [(1, py, px, 2)], and [F.grid_sample] refuses a field whose
      batch size is not the image's: for every batch size other than one
      the call raises and returns no image, leaving the store as it was;
    - it raises in the same way on an image whose element type is not the
      float32 of the control grid (numpy's default float64, or bytes);
    - on a well-formed batch of two or more float32 images, with a
      well-formed control grid, the exception is the [RuntimeError] of
      [F.grid_sample]. *)
Theorem wanet_call_batch_raises `{T : TorchFunctional}
    self img_ref target r u h img bs cs py px :
  TorchShapes T ->
  h !! img_ref = Some img ->
  shape img = [bs; cs; py; px] ->
  (forall out t h',
     WanetBackdoor_call self (img_ref, target) r u h = (inr (out, t), h') ->
     exists img', h' !! out = Some img' /\ shape img' = [bs; cs; py; px]) /\
  ((float32 (float64 (wn_p_backdoor self + wn_p_noise self)) < float32 r)%Q ->
   exists out h',
     WanetBackdoor_call self (img_ref, target) r u h = (inr (out, target), h')) /\
  ((float32 r <= float32 (float64 (wn_p_backdoor self + wn_p_noise self)))%Q ->
   (bs <> 1 ->
    exists e, WanetBackdoor_call self (img_ref, target) r u h = (inl e, h)) /\
   (dtype img <> Float ->
    (forall grid, h !! wn_control_grid self = Some grid -> dtype grid = Float) ->
    exists e, WanetBackdoor_call self (img_ref, target) r u h = (inl e, h)) /\
   (bs <> 1 -> wf img -> 0 < py -> 0 < px ->
    (exists grid k, h !! wn_control_grid self = Some grid /\ dtype grid = Float /\
                    shape grid = [1; 2; k; k] /\ wf grid /\ 0 < k) ->
    WanetBackdoor_call self (img_ref, target) r u h = (inl RuntimeError, h))).
Proof.
  intros HT Eimg Simg. split; [|split].
  - intros out t h' E.
    apply WanetBackdoor_call_inv in E
      as (img0 & bs0 & cs0 & py0 & px0 & Eimg0 & Simg0 & -> & Hbranch).
    assert (img0 = img) by congruence. subst img0.
    assert (Hs : [bs0; cs0; py0; px0] = [bs; cs; py; px]) by congruence.
    destruct Hbranch as [(_ & _ & ->)|(_ & Htrig)].
    + exists img. split; [apply lookup_insert_eq|exact Simg].
    + destruct Htrig as (grid & wfld & w2 & w3 & img' & _ & _ & _ & _ & _ & Sout & ->).
      exists img'. split; [apply lookup_insert_eq|]. rewrite Sout. exact Hs.
  - intros Hr. apply Qlt_not_le_bool in Hr. unfold WanetBackdoor_call.
    rewrite (bind_load _ _ _ _ Eimg), Simg, Hr, bind_alloc.
    eexists _, _. reflexivity.
  - intros Hr. apply Qle_bool_true in Hr.
    assert (Hno :
              (forall w3 img', shape w3 = [1; py; px; 2] ->
                 (exists grid, h !! wn_control_grid self = Some grid /\
                               (dtype grid = Float -> dtype w3 = Float)) ->
                 F_grid_sample img w3 = inr img' -> False) ->
              exists e, WanetBackdoor_call self (img_ref, target) r u h = (inl e, h)).
    { intros Hfalse.
      destruct (WanetBackdoor_call self (img_ref, target) r u h)
        as [[e|[out t]] h'] eqn:E.
      - exists e. f_equal.
        exact (raises_clean_WanetBackdoor_call _ _ _ _ _ _ _ E).
      - exfalso.
        destruct (WanetBackdoor_call_field HT _ _ _ _ _ _ _ _ _ Hr E)
          as (img0 & bs0 & cs0 & py0 & px0 & grid & w3 & img'
              & Eimg0 & Simg0 & Egrid & S3 & D3 & E4).
        assert (img0 = img) by congruence. subst img0.
        assert (Hs : [bs0; cs0; py0; px0] = [bs; cs; py; px]) by congruence.
        injection Hs as -> -> -> ->.
        apply (Hfalse w3 img' S3); [|exact E4].
        exists grid. split; assumption. }
    split; [|split].
    + intros Hbs. apply Hno. intros w3 img' S3 _ E4.
      rewrite (grid_sample_batch T HT img w3 bs cs py px 1 py px Simg S3 Hbs) in E4.
      discriminate.
    + intros Dimg Dgrid. apply Hno. intros w3 img' S3 (grid & Egrid & D3) E4.
      assert (D : dtype img <> dtype w3).
      { rewrite (D3 (Dgrid grid Egrid)). exact Dimg. }
      rewrite (grid_sample_dtype T HT img w3 D) in E4. discriminate.
    + intros Hbs Wimg Hpy Hpx (grid & k & Egrid & Dgrid & Sgrid & Wgrid & Hk).
      destruct (wanet_displacement_returns HT self grid k k py px target r u h
                  Dgrid Sgrid Wgrid Hk Hk Hpy Hpx) as (w1 & E1 & D1 & S1 & W1).
      destruct (wanet_relative_returns w1 py px h S1 W1) as (w2 & E2 & D2 & S2 & W2).
      destruct (wanet_normalize_returns w2 py px h S2 W2 Hpy Hpx)
        as (w3 & E3 & S3 & W3).
      unfold WanetBackdoor_call.
      rewrite (bind_load _ _ _ _ Eimg), Simg, Hr.
      rewrite (bind_load _ _ _ _ Egrid).
      rewrite (bind_inr _ _ _ _ _ E1).
      rewrite (bind_inr _ _ _ _ _ E2).
      rewrite (bind_inr _ _ _ _ _ E3).
      rewrite (grid_sample_batch T HT img w3 bs cs py px 1 py px Simg S3 Hbs).
      reflexivity.
Qed.

Lemma wanet_call_batch_raises_witness :
  @WanetBackdoor_call nearest_torch demo_wanet (1, 9%Z) (1#2) demo_draws
    (<[1 := demo_batch]> demo_grid_heap)
  = (inl RuntimeError, <[1 := demo_batch]> demo_grid_heap).
Proof.
  destruct (@wanet_call_batch_raises nearest_torch demo_wanet 1 9%Z (1#2)
              demo_draws (<[1 := demo_batch]> demo_grid_heap) demo_batch 2 1 2 3)
    as (_ & _ & Htrig).
  - exact nearest_shapes.
  - reflexivity.
  - reflexivity.
  - destruct Htrig as (_ & _ & Hraise).
    + vm_compute. discriminate.
    + apply Hraise.
      * lia.
      * reflexivity.
      * lia.
      * lia.
      * exists (sampled_grid 2 (1#2) demo_draws), 2.
        repeat split; try reflexivity. lia.
Defined.

(** The two failing runs of C8 evaluated: a batch of two float32 images,
    and a single float64 image, both in adversary mode. *)
Example wanet_batch_of_two_raises :
  fst (@WanetBackdoor_call nearest_torch demo_wanet (1, 9%Z) (1#2) demo_draws
         (<[1 := demo_batch]> demo_grid_heap))
  = inl RuntimeError.
Proof. vm_compute. reflexivity. Qed.

Example wanet_float64_image_raises :
  fst (@WanetBackdoor_call nearest_torch demo_wanet (1, 9%Z) (1#2) demo_draws
         (<[1 := demo_double_img]> demo_grid_heap))
  = inl RuntimeError.
Proof. vm_compute. reflexivity. Qed.

(** The adversary-mode run of the concrete instance on one float32 image:
    it returns, with the label overwritten and an image of the input's
    shape. *)
Example wanet_adversary_run :
  let '(res, h') := @WanetBackdoor_call nearest_torch demo_wanet (1, 9%Z) (1#2)
                      demo_draws demo_heap in
  res = inr (2, 3%Z) /\ (shape <$> h' !! 2) = Some [1; 1; 2; 3].
Proof. vm_compute. split; reflexivity. Qed.

(** ** Least and greatest entries *)

Lemma Qmin_cases (x y : Q) : Qmin x y = x \/ Qmin x y = y.
Proof. unfold Qmin, GenericMinMax.gmin. destruct (x ?= y)%Q; auto. Qed.

Lemma Qmax_cases (x y : Q) : Qmax x y = x \/ Qmax x y = y.
Proof. unfold Qmax, GenericMinMax.gmax. destruct (x ?= y)%Q; auto. Qed.

Lemma Qmin_list_In (l : list Q) (m : Q) : Qmin_list l = Some m -> In m l.
Proof.
  destruct l as [|x l]; [discriminate|]. intros [= <-].
  induction l as [|y l IH]; simpl; [auto|].
  destruct (Qmin_cases y (foldr Qmin x l)) as [-> | ->]; [auto|].
  destruct IH as [IH|IH]; auto.
Qed.

Lemma Qmax_list_In (l : list Q) (m : Q) : Qmax_list l = Some m -> In m l.
Proof.
  destruct l as [|x l]; [discriminate|]. intros [= <-].
  induction l as [|y l IH]; simpl; [auto|].
  destruct (Qmax_cases y (foldr Qmax x l)) as [-> | ->]; [auto|].
  destruct IH as [IH|IH]; auto.
Qed.

Lemma Qmin_list_le (l : list Q) (m : Q) :
  Qmin_list l = Some m -> forall x, In x l -> (m <= x)%Q.
Proof.
  destruct l as [|x0 l]; [discriminate|]. intros [= <-].
  induction l as [|y l IH]; simpl; intros x Hx.
  - destruct Hx as [<-|[]]. apply Qle_refl.
  - destruct Hx as [<-|[<-|Hx]].
    + eapply Qle_trans; [apply Q.le_min_r|]. apply IH. left. reflexivity.
    + apply Q.le_min_l.
    + eapply Qle_trans; [apply Q.le_min_r|]. apply IH. right. exact Hx.
Qed.

Lemma Qmax_list_ge (l : list Q) (m : Q) :
  Qmax_list l = Some m -> forall x, In x l -> (x <= m)%Q.
Proof.
  destruct l as [|x0 l]; [discriminate|]. intros [= <-].
  induction l as [|y l IH]; simpl; intros x Hx.
  - destruct Hx as [<-|[]]. apply Qle_refl.
  - destruct Hx as [<-|[<-|Hx]].
    + eapply Qle_trans; [|apply Q.le_max_r]. apply IH. left. reflexivity.
    + apply Q.le_max_l.
    + eapply Qle_trans; [|apply Q.le_max_r]. apply IH. right. exact Hx.
Qed.

(** A monotone map sends the least entry to the least entry and the
    greatest to the greatest. *)
Lemma Qmin_list_map_mono (f : Q -> Q) (l : list Q) (m : Q) :
  (forall x y, In x l -> In y l -> (x <= y)%Q -> (f x <= f y)%Q) ->
  Qmin_list l = Some m ->
  exists m', Qmin_list (map f l) = Some m' /\ (m' == f m)%Q.
Proof.
  intros Hf Hm.
  destruct (Qmin_list_nonempty (map f l)) as [m' Hm'].
  { destruct l; [discriminate|]. discriminate. }
  exists m'. split; [exact Hm'|].
  pose proof (Qmin_list_In _ _ Hm) as Hin.
  apply Qle_antisym.
  - apply (Qmin_list_le _ _ Hm'). apply in_map. exact Hin.
  - apply Qmin_list_In, in_map_iff in Hm' as (x & <- & Hx).
    apply Hf; [exact Hin|exact Hx|]. apply (Qmin_list_le _ _ Hm). exact Hx.
Qed.

Lemma Qmax_list_map_mono (f : Q -> Q) (l : list Q) (m : Q) :
  (forall x y, In x l -> In y l -> (x <= y)%Q -> (f x <= f y)%Q) ->
  Qmax_list l = Some m ->
  exists m', Qmax_list (map f l) = Some m' /\ (m' == f m)%Q.
Proof.
  intros Hf Hm.
  destruct (Qmax_list_nonempty (map f l)) as [m' Hm'].
  { destruct l; [discriminate|]. discriminate. }
  exists m'. split; [exact Hm'|].
  pose proof (Qmax_list_In _ _ Hm) as Hin.
  apply Qle_antisym.
  - apply Qmax_list_In, in_map_iff in Hm' as (x & <- & Hx).
    apply Hf; [exact Hx|exact Hin|]. apply (Qmax_list_ge _ _ Hm). exact Hx.
  - apply (Qmax_list_ge _ _ Hm'). apply in_map. exact Hin.
Qed.

(** ** WanetBackdoor: the min-max rescale *)

(** One coordinate of the rescale, as the source computes it:
    [2 * (x - lo) / (hi - lo) - 1]. *)
Lemma rescale_mono (lo hi x y : Q) :
  (lo < hi)%Q -> (x <= y)%Q ->
  (2 * (x - lo) / (hi - lo) - 1 <= 2 * (y - lo) / (hi - lo) - 1)%Q.
Proof.
  intros Hd Hxy. apply Qplus_le_l. unfold Qdiv. apply Qmult_le_compat_r.
  - lra.
  - apply Qlt_le_weak, Qinv_lt_0_compat. lra.
Qed.

Lemma rescale_lo (lo hi : Q) : (2 * (lo - lo) / (hi - lo) - 1 == -1)%Q.
Proof.
  assert (H0 : (2 * (lo - lo) == 0)%Q) by ring.
  unfold Qdiv. rewrite H0. ring.
Qed.

Lemma rescale_hi (lo hi : Q) : (lo < hi)%Q -> (2 * (hi - lo) / (hi - lo) - 1 == 1)%Q.
Proof. intros Hd. field. lra. Qed.

Lemma rescale_spans (l : list Q) (lo hi : Q) :
  Qmin_list l = Some lo -> Qmax_list l = Some hi -> (lo < hi)%Q ->
  spans (map (fun x => 2 * (x - lo) / (hi - lo) - 1)%Q l) (-1) 1.
Proof.
  intros Hlo Hhi Hd.
  destruct (Qmin_list_map_mono (fun x => 2 * (x - lo) / (hi - lo) - 1)%Q l lo)
    as (lo' & Elo & Hlo'); [|exact Hlo|].
  { intros x y _ _. apply rescale_mono. exact Hd. }
  destruct (Qmax_list_map_mono (fun x => 2 * (x - lo) / (hi - lo) - 1)%Q l hi)
    as (hi' & Ehi & Hhi'); [|exact Hhi|].
  { intros x y _ _. apply rescale_mono. exact Hd. }
  exists lo', hi'. repeat split; try assumption.
  - rewrite Hlo'. apply rescale_lo.
  - rewrite Hhi'. apply rescale_hi. exact Hd.
Qed.

(** The elements of the rescaled field, row by row. *)
Lemma wanet_normalize_data wfld py px h out h' w_min w_max :
  min0 wfld = inr w_min -> max0 wfld = inr w_max ->
  wanet_normalize wfld py px h = (inr out, h') ->
  view2 (data out)
  = map (fun p =>
           ((2 * (fst p - fst w_min) / (fst w_max - fst w_min) - 1)%Q,
            (2 * (snd p - snd w_min) / (snd w_max - snd w_min) - 1)%Q))
        (view2 (data wfld)).
Proof.
  intros Emin Emax. unfold wanet_normalize.
  rewrite Emin, bind_lift_inr, Emax, bind_lift_inr. intros E.
  apply bind_returns in E as ([] & h1 & _ & E). injection E as <- _.
  cbn [data tmap broadcast2 fst snd].
  rewrite !map_unview2, !view2_unview2, !map_map. reflexivity.
Qed.

Lemma min0_inv t w_min :
  min0 t = inr w_min ->
  Qmin_list (coord_x t) = Some (fst w_min) /\
  Qmin_list (coord_y t) = Some (snd w_min).
Proof.
  unfold min0.
  destruct (Qmin_list (coord_x t)) as [a|]; [|discriminate].
  destruct (Qmin_list (coord_y t)) as [b|]; [|discriminate].
  intros [= <-]. split; reflexivity.
Qed.

Lemma max0_inv t w_max :
  max0 t = inr w_max ->
  Qmax_list (coord_x t) = Some (fst w_max) /\
  Qmax_list (coord_y t) = Some (snd w_max).
Proof.
  unfold max0.
  destruct (Qmax_list (coord_x t)) as [a|]; [|discriminate].
  destruct (Qmax_list (coord_y t)) as [b|]; [|discriminate].
  intros [= <-]. split; reflexivity.
Qed.

(** C7.  The min-max rescale of a field of shape [(1, py, px, 2)] returns,
    and in the field it returns each coordinate that was not constant
    (its maximum [w_max] above its minimum [w_min]) spans [[-1, 1]] exactly:
    the least value of that coordinate over all pixels is [-1] and the
    greatest is [1]. *)
Theorem wanet_normalize_spans wfld py px h :
  shape wfld = [1; py; px; 2] -> wf wfld -> 0 < py -> 0 < px ->
  exists w_min w_max out,
    min0 wfld = inr w_min /\ max0 wfld = inr w_max /\
    wanet_normalize wfld py px h = (inr out, h) /\
    shape out = [1; py; px; 2] /\
    ((fst w_min < fst w_max)%Q -> spans (coord_x out) (-1) 1) /\
    ((snd w_min < snd w_max)%Q -> spans (coord_y out) (-1) 1).
Proof.
  intros Hs Hwf Hpy Hpx.
  assert (Hlen : length (data wfld) = 2 * (py * px)).
  { unfold wf in Hwf. rewrite Hwf, Hs. apply numel_field. }
  assert (Hpos : 0 < py * px) by nia.
  destruct (min0_returns wfld _ Hlen Hpos) as [w_min Emin].
  destruct (max0_returns wfld _ Hlen Hpos) as [w_max Emax].
  destruct (wanet_normalize_returns wfld py px h Hs Hwf Hpy Hpx)
    as (out & E & Sout & _).
  exists w_min, w_max, out. repeat (split; [assumption|]).
  pose proof (wanet_normalize_data _ _ _ _ _ _ _ _ Emin Emax E) as Hdata.
  destruct (min0_inv _ _ Emin) as [Hminx Hminy].
  destruct (max0_inv _ _ Emax) as [Hmaxx Hmaxy].
  split; intros Hd.
  - unfold coord_x. rewrite Hdata, map_map. cbn [fst].
    rewrite <- (map_map fst (fun x => 2 * (x - w_min.1) / (w_max.1 - w_min.1) - 1)%Q).
    apply rescale_spans; assumption.
  - unfold coord_y. rewrite Hdata, map_map. cbn [snd].
    rewrite <- (map_map snd (fun x => 2 * (x - w_min.2) / (w_max.2 - w_min.2) - 1)%Q).
    apply rescale_spans; assumption.
Qed.

Lemma wanet_normalize_spans_witness :
  exists out,
    wanet_normalize demo_field 1 2 ∅ = (inr out, ∅) /\
    spans (coord_x out) (-1) 1 /\ spans (coord_y out) (-1) 1.
Proof.
  destruct (wanet_normalize_spans demo_field 1 2 ∅)
    as (w_min & w_max & out & Emin & Emax & E & _ & Hx & Hy).
  - reflexivity.
  - reflexivity.
  - lia.
  - lia.
  - vm_compute in Emin. vm_compute in Emax.
    injection Emin as <-. injection Emax as <-.
    exists out. split; [exact E|]. split.
    + apply Hx. reflexivity.
    + apply Hy. reflexivity.
Defined.

(** ** CornerPixelBackdoor *)

Lemma ndarray_setitem2_run l i j v h a a' :
  h !! l = Some a -> setitem2 a i j v = inr a' ->
  ndarray_setitem2 l i j v h = (inr tt, <[l := a']> h).
Proof.
  intros El Es. unfold ndarray_setitem2.
  rewrite (bind_load _ _ _ _ El), Es. reflexivity.
Qed.

(** The branches of [__call__] are the table [corner_index]. *)
Lemma corner_branches (corner : string) (img : nat) (ci cj : Z) :
  corner_index corner = Some (ci, cj) ->
  (if String.eqb corner "top-left" then ndarray_setitem2 img 0 0 1
   else if String.eqb corner "top-right" then ndarray_setitem2 img (-1) 0 1
   else if String.eqb corner "bottom-left" then ndarray_setitem2 img 0 (-1) 1
   else if String.eqb corner "bottom-right" then ndarray_setitem2 img (-1) (-1) 1
   else mret tt)
  = ndarray_setitem2 img ci cj 1.
Proof.
  unfold corner_index.
  destruct (String.eqb corner "top-left"); [intros [= <- <-]; reflexivity|].
  destruct (String.eqb corner "top-right"); [intros [= <- <-]; reflexivity|].
  destruct (String.eqb corner "bottom-left"); [intros [= <- <-]; reflexivity|].
  destruct (String.eqb corner "bottom-right"); [intros [= <- <-]; reflexivity|].
  discriminate.
Qed.

(** Every corner name [__post_init__] accepts has an entry in the table. *)
Lemma valid_corner_index (corner : string) :
  In corner valid_corners -> exists ci cj, corner_index corner = Some (ci, cj).
Proof.
  intros [<-|[<-|[<-|[<-|[]]]]]; eexists _, _; reflexivity.
Qed.

Lemma corner_index_norm corner ci cj hh ww :
  corner_index corner = Some (ci, cj) -> 0 < hh -> 0 < ww ->
  norm_index ci hh = Some (if (ci =? 0)%Z then 0 else hh - 1) /\
  norm_index cj ww = Some (if (cj =? 0)%Z then 0 else ww - 1).
Proof.
  unfold corner_index. intros E Hh Hw.
  destruct (String.eqb corner "top-left");
    [injection E as <- <-; split; apply norm_index_zero; assumption|].
  destruct (String.eqb corner "top-right");
    [injection E as <- <-; split;
       [apply norm_index_last|apply norm_index_zero]; assumption|].
  destruct (String.eqb corner "bottom-left");
    [injection E as <- <-; split;
       [apply norm_index_zero|apply norm_index_last]; assumption|].
  destruct (String.eqb corner "bottom-right");
    [injection E as <- <-; split; apply norm_index_last; assumption|].
  discriminate.
Qed.

(** What a call with [p_backdoor = 1] does, for any accepted corner name
    and any non-empty image of at least two axes: it returns the reference
    it was given and the target class, and has overwritten, in that very
    object, every entry of the pixel [[ci, cj]] of the table with [1] and
    nothing else. *)
Lemma CornerPixelBackdoor_call_fires self img target r h a hh ww rest ci cj :
  cp_p_backdoor self = 1%Q -> unit_draw r ->
  corner_index (cp_corner self) = Some (ci, cj) ->
  h !! img = Some a -> shape a = hh :: ww :: rest -> wf a ->
  0 < hh -> 0 < ww ->
  exists a',
    CornerPixelBackdoor_call self (img, target) r h
    = (inr (img, cp_target_class self), <[img := a']> h) /\
    shape a' = shape a /\
    forall i j c, i < hh -> j < ww -> c < numel rest ->
      getpixel a' i j c
      = if decide (i = (if (ci =? 0)%Z then 0 else hh - 1) /\
                   j = (if (cj =? 0)%Z then 0 else ww - 1))
        then Some 1%Q else getpixel a i j c.
Proof.
  intros Hp [_ Hr] Hc El Hs Hwf Hh Hw.
  destruct (corner_index_norm _ _ _ hh ww Hc Hh Hw) as [Hi Hj].
  destruct (setitem2_spec a hh ww rest ci cj _ _ 1%Q Hs Hwf Hi Hj)
    as (a' & Es & Sa' & _ & Hpix).
  exists a'. split; [|split; [exact Sa'|exact Hpix]].
  unfold CornerPixelBackdoor_call.
  assert (Hfire : Qgt_bool (float32 r) (float32 (cp_p_backdoor self)) = false).
  { unfold Qgt_bool, Qlt_bool. rewrite Hp.
    rewrite (Qle_bool_true (float32 r) (float32 1)); [reflexivity|].
    apply float32_mono, Qlt_le_weak, Hr. }
  rewrite Hfire, (corner_branches _ _ _ _ Hc).
  rewrite (bind_inr _ _ _ _ _ (ndarray_setitem2_run _ _ _ _ _ _ _ El Es)).
  reflexivity.
Qed.

(** C1, at the input where the code departs from it.  On a 2x3
    grey-scale image, "top-right" names row 0, column 2.  The call with
    [p_backdoor = 1] and [target_class = 7] returns the label 7 and has set
    exactly one pixel to 1, but that pixel is row 1, column 0 (the
    bottom-left corner): [img[-1, 0]] indexes the last row, first column. *)
Theorem corner_top_right_writes_bottom_left :
  let self := mk_CornerPixelBackdoor 1 "top-right" 7 in
  let h := {[ 0 := demo_gray ]} : gmap nat ndarray in
  fst (CornerPixelBackdoor_call self (0, 1%Z) (1#2) h) = inr (0, 7%Z) /\
  snd (CornerPixelBackdoor_call self (0, 1%Z) (1#2) h) !! 0
  = Some (mk_ndarray [2; 3] [0; 0; 0; 1; 0; 0]%Q) /\
  named_corner "top-right" 2 3 = Some (0, 2) /\
  getpixel (mk_ndarray [2; 3] [0; 0; 0; 1; 0; 0]%Q) 0 2 0 = Some 0%Q /\
  getpixel (mk_ndarray [2; 3] [0; 0; 0; 1; 0; 0]%Q) 1 0 0 = Some 1%Q.
Proof. vm_compute. repeat split; reflexivity. Qed.

(** The scenario of the specification: the transform with
    [p_backdoor = 1], [target_class = 7] and the corner "top-left" applied
    in turn to four images with labels 1, 2, 3, 4.  Every label returned is
    7 and every image has its pixel [[0, 0]] at 1. *)
Example corner_batch_of_four :
  let self := mk_CornerPixelBackdoor 1 "top-left" 7 in
  let h0 := {[ 0 := demo_gray; 1 := demo_gray; 2 := demo_gray; 3 := demo_gray ]}
            : gmap nat ndarray in
  let run := foldl (fun acc (s : (nat * Z) * Q) =>
                      let '(res, h) := CornerPixelBackdoor_call self (fst s) (snd s)
                                         (snd acc) in
                      (fst acc ++ [res], h))
                   ([], h0)
                   [((0, 1%Z), 0%Q); ((1, 2%Z), 1#4); ((2, 3%Z), 1#2); ((3, 4%Z), 9#10)] in
  fst run = [inr (0, 7%Z); inr (1, 7%Z); inr (2, 7%Z); inr (3, 7%Z)] /\
  Forall (fun l => (fun a => getpixel a 0 0 0) <$> snd run !! l = Some (Some 1%Q))
         [0; 1; 2; 3].
Proof. vm_compute. split; [reflexivity|]. repeat constructor. Qed.

(** The mirror case: "bottom-left" writes row 0, column 2, the top-right
    corner. *)
Example corner_bottom_left_writes_top_right :
  let self := mk_CornerPixelBackdoor 1 "bottom-left" 7 in
  let h := {[ 0 := demo_gray ]} : gmap nat ndarray in
  snd (CornerPixelBackdoor_call self (0, 1%Z) (1#2) h) !! 0
  = Some (mk_ndarray [2; 3] [0; 0; 1; 0; 0; 0]%Q) /\
  named_corner "bottom-left" 2 3 = Some (1, 0).
Proof. vm_compute. split; reflexivity. Qed.

(** For "top-left" and "bottom-right" the table and the names agree. *)
Lemma corner_index_diagonal (corner : string) (hh ww : nat) (ci cj : Z) :
  corner = "top-left" \/ corner = "bottom-right" ->
  corner_index corner = Some (ci, cj) ->
  named_corner corner hh ww
  = Some (if (ci =? 0)%Z then 0 else hh - 1, if (cj =? 0)%Z then 0 else ww - 1).
Proof. intros [-> | ->] [= <- <-]; reflexivity. Qed.

(** C2, at the input where the code departs from it.  On a three-channel
    pixel the assignment [img[0, 0] = 1] broadcasts the scalar over the
    channel axis: the pixel becomes (1, 1, 1), white, where red is
    (1, 0, 0). *)
Theorem corner_pixel_rgb_is_white :
  let self := mk_CornerPixelBackdoor 1 "top-left" 0 in
  let h := {[ 0 := demo_rgb ]} : gmap nat ndarray in
  snd (CornerPixelBackdoor_call self (0, 1%Z) (1#2) h) !! 0
  = Some (mk_ndarray [1; 1; 3] [1; 1; 1]%Q).
Proof. vm_compute. reflexivity. Qed.

(** C10, at an input where the code departs from it.  The array the
    caller passed is the array that is written: after the call the caller's
    reference reads the poisoned image, and the reference returned is the
    caller's own. *)
Theorem corner_pixel_mutates_input :
  let self := mk_CornerPixelBackdoor 1 "top-left" 7 in
  let h := {[ 0 := demo_gray ]} : gmap nat ndarray in
  h !! 0 = Some demo_gray /\
  fst (CornerPixelBackdoor_call self (0, 1%Z) (1#2) h) = inr (0, 7%Z) /\
  snd (CornerPixelBackdoor_call self (0, 1%Z) (1#2) h) !! 0
  = Some (mk_ndarray [2; 3] [1; 0; 0; 0; 0; 0]%Q) /\
  dom (snd (CornerPixelBackdoor_call self (0, 1%Z) (1#2) h)) = dom h.
Proof. vm_compute. repeat split; reflexivity. Qed.

(** ** NoiseBackdoor *)

(** A draw above [p_backdoor] leaves sample and store as they are. *)
Lemma NoiseBackdoor_call_skips self img target r z h :
  (float32 (nb_p_backdoor self) < float32 r)%Q ->
  NoiseBackdoor_call self (img, target) r z h = (inr (img, target), h).
Proof.
  intros Hr. unfold NoiseBackdoor_call, Qgt_bool, Qlt_bool.
  rewrite (Qlt_not_le_bool _ _ Hr). reflexivity.
Qed.

(** The noise of a call that fires, for a standard deviation
    [np.random.normal] accepts. *)
Lemma np_random_normal_returns (std : Q) (s : list nat) (z : nat -> Q) :
  (0 <= std)%Q ->
  np_random_normal 0 std s z
  = inr {| dtype := Double; shape := s;
           data := map (fun k => (0 + std * z k)%Q) (seq 0 (numel s)) |}.
Proof.
  intros Hs. unfold np_random_normal, Qlt_bool.
  rewrite (Qle_bool_true _ _ Hs). reflexivity.
Qed.

Lemma np_random_normal_refuses (std : Q) (s : list nat) (z : nat -> Q) :
  (std < 0)%Q -> np_random_normal 0 std s z = inl ValueError.
Proof.
  intros Hs. unfold np_random_normal, Qlt_bool.
  rewrite (Qlt_not_le_bool _ _ Hs). reflexivity.
Qed.

(** A draw at or below [p_backdoor] adds the noise into a new array and
    sets the target class; the draw [0] is one, whatever [p_backdoor >= 0]. *)
Lemma NoiseBackdoor_call_fires self img target r z h a noise :
  (r <= nb_p_backdoor self)%Q -> h !! img = Some a ->
  np_random_normal 0 (nb_std self) (shape a) z = inr noise ->
  NoiseBackdoor_call self (img, target) r z h
  = (inr (fresh (dom h), nb_target_class self),
     <[fresh (dom h) := ndarray_add a noise]> h).
Proof.
  intros Hr El En. unfold NoiseBackdoor_call, Qgt_bool, Qlt_bool.
  rewrite (Qle_bool_true _ _ (float32_mono _ _ Hr)). cbn [negb].
  rewrite (bind_load _ _ _ _ El), En, bind_lift_inr, bind_alloc. reflexivity.
Qed.

(** With a negative [std] a call that fires raises [ValueError], before
    anything is allocated. *)
Lemma NoiseBackdoor_call_negative_std self img target r z h a :
  (r <= nb_p_backdoor self)%Q -> h !! img = Some a -> (nb_std self < 0)%Q ->
  NoiseBackdoor_call self (img, target) r z h = (inl ValueError, h).
Proof.
  intros Hr El Hs. unfold NoiseBackdoor_call, Qgt_bool, Qlt_bool.
  rewrite (Qle_bool_true _ _ (float32_mono _ _ Hr)). cbn [negb].
  rewrite (bind_load _ _ _ _ El), (np_random_normal_refuses _ _ _ Hs).
  reflexivity.
Qed.

(** With [p_backdoor = 0] every positive draw of [torch.rand] (a float32
    value) leaves the sample as it is. *)
Lemma NoiseBackdoor_call_positive_draw self img target r z h :
  nb_p_backdoor self = 0%Q -> (float32 r == r)%Q -> (0 < r)%Q ->
  NoiseBackdoor_call self (img, target) r z h = (inr (img, target), h).
Proof.
  intros Hp Hf Hr. apply NoiseBackdoor_call_skips.
  rewrite Hp, Hf. exact Hr.
Qed.

(** C9, at the input where the code departs from it.  With
    [p_backdoor = 0] and the draw [0] (a value of [torch.rand]), the test
    [0 > 0] fails and the transform fires: the image returned is the input
    plus the noise (here [std = 3/10] times standard normal draws of
    [1/4], that is [3/40] on a black image) and the label is the target
    class. *)
Theorem noise_zero_probability_zero_draw :
  let self := mk_NoiseBackdoor 0 (3#10) 5 in
  let h := {[ 0 := demo_gray ]} : gmap nat ndarray in
  unit_draw 0 /\
  fst (NoiseBackdoor_call self (0, 1%Z) 0 (fun _ => 1#4) h) = inr (1, 5%Z) /\
  snd (NoiseBackdoor_call self (0, 1%Z) 0 (fun _ => 1#4) h) !! 1
  = Some (mk_ndarray [2; 3] [3#40; 3#40; 3#40; 3#40; 3#40; 3#40]).
Proof.
  split; [split; [apply Qle_refl|reflexivity]|].
  vm_compute. split; reflexivity.
Qed.

(** * Further properties of the transforms *)

(** ** CornerPixelBackdoor: construction, skipping, errors, repetition *)

Lemma Qle_bool_false (x y : Q) : Qle_bool x y = false -> ~ (x <= y)%Q.
Proof. intros E H. apply Qle_bool_iff in H. congruence. Qed.

Lemma unit_interval_bool (p : Q) :
  Qle_bool 0 p && Qle_bool p 1 = true <-> (0 <= p <= 1)%Q.
Proof.
  rewrite andb_true_iff, !Qle_bool_iff. reflexivity.
Qed.

Lemma valid_corner_bool (corner : string) :
  bool_decide (corner ∈ valid_corners) = true <-> In corner valid_corners.
Proof. rewrite bool_decide_eq_true. apply list_elem_of_In. Qed.

Lemma CornerPixelBackdoor_new_unfold p corner target h :
  CornerPixelBackdoor_new p corner target h
  = (if Qle_bool 0 p && Qle_bool p 1
     then if bool_decide (corner ∈ valid_corners)
          then inr (mk_CornerPixelBackdoor p corner target)
          else inl (AssertionError "Invalid corner specified")
     else inl (AssertionError "Probability must be between 0 and 1"), h).
Proof.
  unfold CornerPixelBackdoor_new, CornerPixelBackdoor_post_init,
    Transform_post_init.
  cbn [cp_p_backdoor cp_corner]. rewrite !bind_unfold. cbn [mret py_ret].
  destruct (Qle_bool 0 p && Qle_bool p 1);
    destruct (bool_decide (corner ∈ valid_corners)); reflexivity.
Qed.

(** X1.  [CornerPixelBackdoor(p, corner, target)] returns an instance
    exactly when [0 <= p <= 1] and [corner] is one of the four names; the
    instance then holds the three arguments.  A probability out of range is
    reported first, with "Probability must be between 0 and 1", whatever
    the corner; an unknown corner with a probability in range is reported
    with "Invalid corner specified".  The store is never touched. *)
Theorem CornerPixelBackdoor_new_checks p corner target h :
  ((0 <= p <= 1)%Q -> In corner valid_corners ->
   CornerPixelBackdoor_new p corner target h
   = (inr (mk_CornerPixelBackdoor p corner target), h)) /\
  (~ (0 <= p <= 1)%Q ->
   CornerPixelBackdoor_new p corner target h
   = (inl (AssertionError "Probability must be between 0 and 1"), h)) /\
  ((0 <= p <= 1)%Q -> ~ In corner valid_corners ->
   CornerPixelBackdoor_new p corner target h
   = (inl (AssertionError "Invalid corner specified"), h)) /\
  (forall self h',
     CornerPixelBackdoor_new p corner target h = (inr self, h') ->
     (0 <= p <= 1)%Q /\ In corner valid_corners).
Proof.
  rewrite CornerPixelBackdoor_new_unfold.
  pose proof (unit_interval_bool p) as Hp.
  pose proof (valid_corner_bool corner) as Hc.
  split; [|split; [|split]].
  - intros H1 H2. apply Hp in H1. apply Hc in H2. rewrite H1, H2. reflexivity.
  - intros H1. destruct (Qle_bool 0 p && Qle_bool p 1); [|reflexivity].
    exfalso. apply H1, Hp. reflexivity.
  - intros H1 H2. apply Hp in H1. rewrite H1.
    destruct (bool_decide (corner ∈ valid_corners)); [|reflexivity].
    exfalso. apply H2, Hc. reflexivity.
  - intros self h' E.
    destruct (Qle_bool 0 p && Qle_bool p 1); [|discriminate].
    destruct (bool_decide (corner ∈ valid_corners)); [|discriminate].
    split; [apply Hp|apply Hc]; reflexivity.
Qed.

(** A draw at or below [p_backdoor] is at or below it in float32 too:
    rounding is monotone. *)
Lemma corner_fires_bool (self : CornerPixelBackdoor) (r : Q) :
  (r <= cp_p_backdoor self)%Q ->
  Qgt_bool (float32 r) (float32 (cp_p_backdoor self)) = false.
Proof.
  intros Hr. unfold Qgt_bool, Qlt_bool.
  rewrite (Qle_bool_true _ _ (float32_mono _ _ Hr)). reflexivity.
Qed.

Lemma corner_skips_bool (self : CornerPixelBackdoor) (r : Q) :
  (float32 (cp_p_backdoor self) < float32 r)%Q ->
  Qgt_bool (float32 r) (float32 (cp_p_backdoor self)) = true.
Proof.
  intros Hr. unfold Qgt_bool, Qlt_bool. rewrite (Qlt_not_le_bool _ _ Hr).
  reflexivity.
Qed.

(** X2.  A call that fires ([r <= p_backdoor]) on a non-empty image with
    at least two axes, for any of the four corner names: it returns the
    reference it was given together with [target_class], and the object
    behind that reference now has the same shape, with every entry of the
    pixel [[ci, cj]] of the table [corner_index] equal to [1] and every
    other entry as before. *)
Theorem corner_call_writes_one_pixel self img target r h a hh ww rest :
  (r <= cp_p_backdoor self)%Q ->
  In (cp_corner self) valid_corners ->
  h !! img = Some a -> shape a = hh :: ww :: rest -> wf a ->
  0 < hh -> 0 < ww ->
  exists ci cj a',
    corner_index (cp_corner self) = Some (ci, cj) /\
    CornerPixelBackdoor_call self (img, target) r h
    = (inr (img, cp_target_class self), <[img := a']> h) /\
    shape a' = shape a /\ wf a' /\
    forall i j c, i < hh -> j < ww -> c < numel rest ->
      getpixel a' i j c
      = if decide (i = (if (ci =? 0)%Z then 0 else hh - 1) /\
                   j = (if (cj =? 0)%Z then 0 else ww - 1))
        then Some 1%Q else getpixel a i j c.
Proof.
  intros Hr Hin El Hs Hwf Hh Hw.
  destruct (valid_corner_index _ Hin) as (ci & cj & Hc).
  destruct (corner_index_norm _ _ _ hh ww Hc Hh Hw) as [Hi Hj].
  destruct (setitem2_spec a hh ww rest ci cj _ _ 1%Q Hs Hwf Hi Hj)
    as (a' & Es & Sa' & Wa' & Hpix).
  exists ci, cj, a'. split; [exact Hc|]. split; [|auto].
  unfold CornerPixelBackdoor_call.
  rewrite (corner_fires_bool _ _ Hr), (corner_branches _ _ _ _ Hc).
  rewrite (bind_inr _ _ _ _ _ (ndarray_setitem2_run _ _ _ _ _ _ _ El Es)).
  reflexivity.
Qed.

Lemma corner_call_writes_one_pixel_witness :
  exists ci cj a',
    corner_index "bottom-right" = Some (ci, cj) /\
    CornerPixelBackdoor_call (mk_CornerPixelBackdoor (1#2) "bottom-right" 7)
      (0, 1%Z) (1#4) {[ 0 := demo_gray ]}
    = (inr (0, 7%Z), <[0 := a']> {[ 0 := demo_gray ]}) /\
    shape a' = shape demo_gray /\ wf a' /\
    forall i j c, i < 2 -> j < 3 -> c < numel [] ->
      getpixel a' i j c
      = if decide (i = (if (ci =? 0)%Z then 0 else 2 - 1) /\
                   j = (if (cj =? 0)%Z then 0 else 3 - 1))
        then Some 1%Q else getpixel demo_gray i j c.
Proof.
  apply (corner_call_writes_one_pixel
           (mk_CornerPixelBackdoor (1#2) "bottom-right" 7) 0 1%Z (1#4)
           {[ 0 := demo_gray ]} demo_gray 2 3 []).
  - vm_compute. discriminate.
  - vm_compute. tauto.
  - reflexivity.
  - reflexivity.
  - reflexivity.
  - lia.
  - lia.
Defined.

Lemma setitem2_unindexable a i j v :
  (forall hh ww rest, shape a = hh :: ww :: rest -> hh = 0 \/ ww = 0) ->
  setitem2 a i j v = inl IndexError.
Proof.
  intros Hs. unfold setitem2.
  destruct (shape a) as [|hh [|ww rest]]; try reflexivity.
  destruct (norm_index i hh) as [i'|] eqn:Ei; [|reflexivity].
  destruct (norm_index j ww) as [j'|] eqn:Ej; [|reflexivity].
  apply norm_index_lt in Ei. apply norm_index_lt in Ej.
  destruct (Hs hh ww rest eq_refl); lia.
Qed.

(** X3.  The image is indexed only when the transform fires.  A draw
    above [p_backdoor] in float32, where the source compares them, hands
    back the sample and leaves the store as it is, whatever the array is.
    When the transform fires on an array that has fewer than two axes, or
    whose first or second axis is empty, the assignment raises
    [IndexError]: no sample is returned and the store is unchanged. *)
Theorem corner_call_skip_and_index_error self img target r h a :
  h !! img = Some a ->
  ((float32 (cp_p_backdoor self) < float32 r)%Q ->
   CornerPixelBackdoor_call self (img, target) r h = (inr (img, target), h)) /\
  ((r <= cp_p_backdoor self)%Q ->
   In (cp_corner self) valid_corners ->
   (forall hh ww rest, shape a = hh :: ww :: rest -> hh = 0 \/ ww = 0) ->
   CornerPixelBackdoor_call self (img, target) r h = (inl IndexError, h)).
Proof.
  intros El. split.
  - intros Hr. unfold CornerPixelBackdoor_call.
    rewrite (corner_skips_bool _ _ Hr). reflexivity.
  - intros Hr Hin Hs.
    destruct (valid_corner_index _ Hin) as (ci & cj & Hc).
    unfold CornerPixelBackdoor_call.
    rewrite (corner_fires_bool _ _ Hr), (corner_branches _ _ _ _ Hc).
    unfold ndarray_setitem2.
    rewrite bind_unfold, (bind_load _ _ _ _ El).
    rewrite (setitem2_unindexable _ _ _ _ Hs). reflexivity.
Qed.

Lemma corner_call_skip_and_index_error_witness :
  CornerPixelBackdoor_call (mk_CornerPixelBackdoor (1#2) "top-left" 7)
    (0, 1%Z) (3#4) {[ 0 := mk_ndarray [4] [0; 0; 0; 0]%Q ]}
  = (inr (0, 1%Z), {[ 0 := mk_ndarray [4] [0; 0; 0; 0]%Q ]}) /\
  CornerPixelBackdoor_call (mk_CornerPixelBackdoor (1#2) "top-left" 7)
    (0, 1%Z) (1#4) {[ 0 := mk_ndarray [4] [0; 0; 0; 0]%Q ]}
  = (inl IndexError, {[ 0 := mk_ndarray [4] [0; 0; 0; 0]%Q ]}).
Proof.
  split.
  - apply (corner_call_skip_and_index_error
             (mk_CornerPixelBackdoor (1#2) "top-left" 7) 0 1%Z (3#4)
             {[ 0 := mk_ndarray [4] [0; 0; 0; 0]%Q ]}
             (mk_ndarray [4] [0; 0; 0; 0]%Q)).
    + reflexivity.
    + vm_compute. reflexivity.
  - apply (corner_call_skip_and_index_error
             (mk_CornerPixelBackdoor (1#2) "top-left" 7) 0 1%Z (1#4)
             {[ 0 := mk_ndarray [4] [0; 0; 0; 0]%Q ]}
             (mk_ndarray [4] [0; 0; 0; 0]%Q)).
    + reflexivity.
    + vm_compute. discriminate.
    + vm_compute. tauto.
    + intros hh ww rest E. discriminate.
Defined.

Lemma splice_idem (d : list Q) (off bs : nat) (v : Q) :
  off + bs <= length d ->
  let d' := take off d ++ replicate bs v ++ drop (off + bs) d in
  take off d' ++ replicate bs v ++ drop (off + bs) d' = d'.
Proof.
  intros Hlen d'. apply list_eq. intros n.
  assert (Hlen' : off + bs <= length d').
  { unfold d'. rewrite length_splice; assumption. }
  rewrite (lookup_splice d' off bs v n Hlen').
  case_decide as Hn; [|reflexivity].
  unfold d'. rewrite (lookup_splice d off bs v n Hlen).
  rewrite decide_True by exact Hn. reflexivity.
Qed.

(** Assigning the same scalar to the same pixel again changes nothing. *)
Lemma setitem2_idem a i j v a' :
  wf a -> setitem2 a i j v = inr a' -> setitem2 a' i j v = inr a'.
Proof.
  intros Hwf. unfold setitem2.
  destruct (shape a) as [|hh [|ww rest]] eqn:Hs; try discriminate.
  destruct (norm_index i hh) as [i'|] eqn:Ei; [|discriminate].
  destruct (norm_index j ww) as [j'|] eqn:Ej; [|discriminate].
  intros [= <-]. cbn [shape data]. rewrite Ei, Ej.
  f_equal. f_equal. apply splice_idem.
  unfold wf in Hwf. rewrite Hwf, Hs. cbn [numel foldr].
  apply pixel_block_bound; eapply norm_index_lt; eassumption.
Qed.

Lemma corner_branches_none (corner : string) (img : nat) :
  corner_index corner = None ->
  (if String.eqb corner "top-left" then ndarray_setitem2 img 0 0 1
   else if String.eqb corner "top-right" then ndarray_setitem2 img (-1) 0 1
   else if String.eqb corner "bottom-left" then ndarray_setitem2 img 0 (-1) 1
   else if String.eqb corner "bottom-right" then ndarray_setitem2 img (-1) (-1) 1
   else mret tt)
  = mret tt.
Proof.
  unfold corner_index.
  destruct (String.eqb corner "top-left"); [discriminate|].
  destruct (String.eqb corner "top-right"); [discriminate|].
  destruct (String.eqb corner "bottom-left"); [discriminate|].
  destruct (String.eqb corner "bottom-right"); [discriminate|].
  reflexivity.
Qed.

(** The store a call leaves, whichever way it ends. *)
Lemma corner_call_store self img target r h a :
  h !! img = Some a ->
  snd (CornerPixelBackdoor_call self (img, target) r h)
  = if Qgt_bool (float32 r) (float32 (cp_p_backdoor self)) then h
    else match corner_index (cp_corner self) with
         | None => h
         | Some (ci, cj) =>
             match setitem2 a ci cj 1 with
             | inl _ => h
             | inr a' => <[img := a']> h
             end
         end.
Proof.
  intros El. unfold CornerPixelBackdoor_call.
  destruct (Qgt_bool (float32 r) (float32 (cp_p_backdoor self))); [reflexivity|].
  destruct (corner_index (cp_corner self)) as [[ci cj]|] eqn:Hc.
  - rewrite (corner_branches _ _ _ _ Hc). unfold ndarray_setitem2.
    rewrite bind_unfold, (bind_load _ _ _ _ El).
    destruct (setitem2 a ci cj 1); reflexivity.
  - rewrite (corner_branches_none _ _ Hc). reflexivity.
Qed.

(** X4.  Poisoning is idempotent on the store: once a call has fired on
    an image, any further call of the same transform on that image, with
    any draw and any label, leaves the store exactly as the first call
    left it. *)
Theorem corner_call_twice self img t1 t2 r1 r2 h a :
  (r1 <= cp_p_backdoor self)%Q ->
  h !! img = Some a -> wf a ->
  snd (CornerPixelBackdoor_call self (img, t2) r2
         (snd (CornerPixelBackdoor_call self (img, t1) r1 h)))
  = snd (CornerPixelBackdoor_call self (img, t1) r1 h).
Proof.
  intros Hr El Hwf.
  rewrite (corner_call_store self img t1 r1 h a El).
  rewrite (corner_fires_bool _ _ Hr).
  destruct (corner_index (cp_corner self)) as [[ci cj]|] eqn:Hc.
  - destruct (setitem2 a ci cj 1) as [e|a'] eqn:Es.
    + rewrite (corner_call_store self img t2 r2 h a El), Hc, Es.
      destruct (Qgt_bool (float32 r2) (float32 (cp_p_backdoor self))); reflexivity.
    + rewrite (corner_call_store self img t2 r2 _ a' (lookup_insert_eq _ _ _)).
      rewrite Hc, (setitem2_idem _ _ _ _ _ Hwf Es), insert_insert_eq.
      destruct (Qgt_bool (float32 r2) (float32 (cp_p_backdoor self))); reflexivity.
  - rewrite (corner_call_store self img t2 r2 h a El), Hc.
    destruct (Qgt_bool (float32 r2) (float32 (cp_p_backdoor self))); reflexivity.
Qed.

Lemma corner_call_twice_witness :
  snd (CornerPixelBackdoor_call (mk_CornerPixelBackdoor (1#2) "top-right" 7)
         (0, 7%Z) (1#3)
         (snd (CornerPixelBackdoor_call
                 (mk_CornerPixelBackdoor (1#2) "top-right" 7)
                 (0, 1%Z) (1#4) {[ 0 := demo_rgb ]})))
  = snd (CornerPixelBackdoor_call (mk_CornerPixelBackdoor (1#2) "top-right" 7)
           (0, 1%Z) (1#4) {[ 0 := demo_rgb ]}).
Proof.
  apply (corner_call_twice (mk_CornerPixelBackdoor (1#2) "top-right" 7)
           0 1%Z 7%Z (1#4) (1#3) {[ 0 := demo_rgb ]} demo_rgb).
  - vm_compute. discriminate.
  - reflexivity.
  - reflexivity.
Defined.

(** ** NoiseBackdoor: construction and the two branches of a call *)

Lemma NoiseBackdoor_new_unfold p std target h :
  NoiseBackdoor_new p std target h
  = (if Qle_bool 0 p && Qle_bool p 1
     then inr (mk_NoiseBackdoor p std target)
     else inl (AssertionError "Probability must be between 0 and 1"), h).
Proof.
  unfold NoiseBackdoor_new, NoiseBackdoor_post_init, Transform_post_init.
  cbn [nb_p_backdoor]. rewrite !bind_unfold. cbn [mret py_ret].
  destruct (Qle_bool 0 p && Qle_bool p 1); reflexivity.
Qed.

(** X6.  [NoiseBackdoor(p, std, target)] returns an instance exactly when
    [0 <= p <= 1], and otherwise raises the assertion failure "Probability
    must be between 0 and 1".  Only the probability is examined: every
    [std], negative ones included, and every target class are accepted. *)
Theorem NoiseBackdoor_new_checks p std target h :
  ((0 <= p <= 1)%Q ->
   NoiseBackdoor_new p std target h = (inr (mk_NoiseBackdoor p std target), h)) /\
  (~ (0 <= p <= 1)%Q ->
   NoiseBackdoor_new p std target h
   = (inl (AssertionError "Probability must be between 0 and 1"), h)) /\
  (forall self h',
     NoiseBackdoor_new p std target h = (inr self, h') -> (0 <= p <= 1)%Q).
Proof.
  rewrite NoiseBackdoor_new_unfold.
  pose proof (unit_interval_bool p) as Hp.
  split; [|split].
  - intros H1. apply Hp in H1. rewrite H1. reflexivity.
  - intros H1. destruct (Qle_bool 0 p && Qle_bool p 1); [|reflexivity].
    exfalso. apply H1, Hp. reflexivity.
  - intros self h' E.
    destruct (Qle_bool 0 p && Qle_bool p 1); [|discriminate].
    apply Hp. reflexivity.
Qed.

(** X7.  The branches of a call.  A draw above [p_backdoor] in float32,
    where the source compares them, hands back the sample and leaves the
    store as it is.  A draw at or below [p_backdoor] makes the transform
    fire.  With a standard deviation [np.random.normal] accepts
    ([std >= 0]) it makes a new float64 array, at a reference that was not
    in use, of the shape of the input and with entry [k] equal to the
    input's entry [k] plus [0 + std * z_k], [z_k] being the [k]-th standard
    normal draw; the label is [target_class]; and every object that was in
    the store, the input among them, is unchanged.  With a negative [std]
    it raises [ValueError] and the store is as it was. *)
Theorem noise_call_branches self img target r z h a :
  h !! img = Some a -> wf a ->
  ((float32 (nb_p_backdoor self) < float32 r)%Q ->
   NoiseBackdoor_call self (img, target) r z h = (inr (img, target), h)) /\
  ((r <= nb_p_backdoor self)%Q -> (0 <= nb_std self)%Q ->
   exists out a',
     NoiseBackdoor_call self (img, target) r z h
     = (inr (out, nb_target_class self), <[out := a']> h) /\
     h !! out = None /\
     dtype a' = Double /\ shape a' = shape a /\ wf a' /\
     (forall k x, data a !! k = Some x ->
        data a' !! k = Some (x + (0 + nb_std self * z k))%Q) /\
     (forall l b, h !! l = Some b -> <[out := a']> h !! l = Some b)) /\
  ((r <= nb_p_backdoor self)%Q -> (nb_std self < 0)%Q ->
   NoiseBackdoor_call self (img, target) r z h = (inl ValueError, h)).
Proof.
  intros El Hwf. split; [|split].
  - apply NoiseBackdoor_call_skips.
  - intros Hr Hstd.
    pose proof (np_random_normal_returns _ (shape a) z Hstd) as En.
    eexists (fresh (dom h)), _.
    split; [exact (NoiseBackdoor_call_fires _ _ _ _ _ _ _ _ Hr El En)|].
    split; [apply alloc_fresh|].
    split; [cbn [ndarray_add dtype]; destruct (dtype a); reflexivity|].
    split; [reflexivity|]. split; [|split].
    + apply wf_ndarray_add; [exact Hwf| |reflexivity].
      unfold wf. cbn [data shape]. rewrite length_map, length_seq. reflexivity.
    + intros k x Ek. cbn [ndarray_add data].
      rewrite lookup_zip_with, Ek. cbn.
      rewrite (lookup_random_data (fun k => (0 + nb_std self * z k)%Q));
        [reflexivity|].
      apply lookup_lt_Some in Ek. unfold wf in Hwf. lia.
    + intros l b Eb. rewrite lookup_insert_ne; [exact Eb|].
      intros <-. rewrite alloc_fresh in Eb. discriminate.
  - intros Hr Hstd. exact (NoiseBackdoor_call_negative_std _ _ _ _ _ _ _ Hr El Hstd).
Qed.

Lemma noise_call_branches_witness :
  (exists out a',
     NoiseBackdoor_call (mk_NoiseBackdoor (1#2) (3#10) 5) (0, 1%Z) (1#4)
       demo_draws {[ 0 := demo_img ]}
     = (inr (out, 5%Z), <[out := a']> {[ 0 := demo_img ]}) /\
     ({[ 0 := demo_img ]} : gmap nat ndarray) !! out = None /\
     dtype a' = Double /\ shape a' = shape demo_img /\ wf a' /\
     (forall k x, data demo_img !! k = Some x ->
                  data a' !! k = Some (x + (0 + (3#10) * demo_draws k))%Q) /\
     (forall l b, ({[ 0 := demo_img ]} : gmap nat ndarray) !! l = Some b ->
                  <[out := a']> ({[ 0 := demo_img ]} : gmap nat ndarray) !! l = Some b)) /\
  NoiseBackdoor_call (mk_NoiseBackdoor (1#2) (-3#10) 5) (0, 1%Z) (1#4)
    demo_draws {[ 0 := demo_img ]}
  = (inl ValueError, {[ 0 := demo_img ]}).
Proof.
  split.
  - apply (noise_call_branches (mk_NoiseBackdoor (1#2) (3#10) 5) 0 1%Z (1#4)
             demo_draws {[ 0 := demo_img ]} demo_img).
    + reflexivity.
    + reflexivity.
    + vm_compute. discriminate.
    + vm_compute. discriminate.
  - apply (noise_call_branches (mk_NoiseBackdoor (1#2) (-3#10) 5) 0 1%Z (1#4)
             demo_draws {[ 0 := demo_img ]} demo_img).
    + reflexivity.
    + reflexivity.
    + vm_compute. discriminate.
    + vm_compute. reflexivity.
Defined.

(** ** WanetBackdoor: construction *)

(** X8.  The outcomes of [WanetBackdoor(...)], for every store.
    A negative [control_grid_width] (a signed 64-bit integer) is refused by
    [torch.rand] with a [RuntimeError]; whenever [torch.rand] raises, for
    that or for a tensor it cannot count or allocate, construction raises
    the same exception before anything is stored; and it does raise for
    every width that is negative or whose tensor would have more than
    [2 ^ 63 - 1] elements.  Once it has delivered the tensor, the grid is
    stored first and the sum [p_backdoor + p_noise], as float64 arithmetic
    computes it, is checked afterwards: a sum outside [[0, 1]] (below 0 as
    well as above 1) raises "Probability must be between 0 and 1", a sum
    inside returns the instance, whose [control_grid] is the new
    reference.  Nothing else makes construction succeed. *)
Theorem WanetBackdoor_new_outcomes pb pn k ws tc rand h :
  ((- 2 ^ 63 <= k < 0)%Z ->
   WanetBackdoor_new pb pn k ws tc rand h = (inl RuntimeError, h)) /\
  (forall e, rand = inl e -> (0 <= k)%Z ->
   WanetBackdoor_new pb pn k ws tc rand h = (inl e, h)) /\
  (~ grid_size_ok k ->
   exists e, WanetBackdoor_new pb pn k ws tc rand h = (inl e, h)) /\
  (forall u, rand = inr u -> grid_size_ok k ->
   ~ (0 <= float64 (pb + pn) <= 1)%Q ->
   WanetBackdoor_new pb pn k ws tc rand h
   = (inl (AssertionError "Probability must be between 0 and 1"),
      <[fresh (dom h) := sampled_grid k ws u]> h)) /\
  (forall u, rand = inr u -> grid_size_ok k ->
   (0 <= float64 (pb + pn) <= 1)%Q ->
   WanetBackdoor_new pb pn k ws tc rand h
   = (inr (mk_WanetBackdoor pb pn k ws tc (fresh (dom h))),
      <[fresh (dom h) := sampled_grid k ws u]> h) /\
   h !! fresh (dom h) = None) /\
  (forall self h',
     WanetBackdoor_new pb pn k ws tc rand h = (inr self, h') ->
     grid_size_ok k /\ (exists u, rand = inr u) /\
     (0 <= float64 (pb + pn) <= 1)%Q).
Proof.
  pose proof (unit_interval_bool (float64 (pb + pn))) as Hp.
  split; [|split; [|split; [|split; [|split]]]].
  - intros Hk. apply WanetBackdoor_new_refused, torch_rand_grid_negative, Hk.
  - intros e -> Hk. apply WanetBackdoor_new_refused, torch_rand_grid_raises. lia.
  - intros Hk. destruct (torch_rand_grid_refuses k rand Hk) as [e He].
    exists e. apply WanetBackdoor_new_refused, He.
  - intros u -> Hk Hs. rewrite WanetBackdoor_new_unfold by exact Hk. cbv zeta.
    destruct (Qle_bool 0 (float64 (pb + pn)) && Qle_bool (float64 (pb + pn)) 1);
      [|reflexivity].
    exfalso. apply Hs, Hp. reflexivity.
  - intros u -> Hk Hs. rewrite WanetBackdoor_new_unfold by exact Hk. cbv zeta.
    apply Hp in Hs. rewrite Hs. split; [reflexivity|apply alloc_fresh].
  - intros self h' E.
    apply WanetBackdoor_new_returns in E as (u & -> & Hk & _ & _ & Hs).
    split; [exact Hk|]. split; [exists u; reflexivity|apply Hp, Hs].
Qed.

(** ** WanetBackdoor: the stored grid is normalised *)

Lemma Qsum_scale (f : Q -> Q) (c : Q) (l : list Q) :
  (Qsum (map (fun x => f x * c) l) == Qsum (map f l) * c)%Q.
Proof.
  induction l as [|x l IH]; simpl; [ring|]. rewrite IH. ring.
Qed.

Lemma Qsum_ext (f g : Q -> Q) (l : list Q) :
  (forall x, f x == g x)%Q -> (Qsum (map f l) == Qsum (map g l))%Q.
Proof.
  intros Hfg. induction l as [|x l IH]; simpl; [reflexivity|].
  rewrite IH, Hfg. reflexivity.
Qed.

Lemma Qsum_abs_nonneg (l : list Q) : (0 <= Qsum (map Qabs l))%Q.
Proof.
  induction l as [|x l IH]; simpl; [apply Qle_refl|].
  pose proof (Qabs_nonneg x). lra.
Qed.

Lemma Qabs_pos_nonzero (x : Q) : ~ (x == 0)%Q -> (0 < Qabs x)%Q.
Proof.
  intros Hx. apply Qabs_case; intros H; destruct (Qlt_le_dec 0 x); lra.
Qed.

Lemma Qsum_abs_pos (l : list Q) (x : Q) :
  In x l -> ~ (x == 0)%Q -> (0 < Qsum (map Qabs l))%Q.
Proof.
  induction l as [|y l IH]; simpl; [tauto|]. intros [->|Hin] Hx.
  - pose proof (Qabs_pos_nonzero x Hx). pose proof (Qsum_abs_nonneg l). lra.
  - pose proof (Qabs_nonneg y). specialize (IH Hin Hx). lra.
Qed.

(** Dividing by the mean absolute value and scaling by [ws] leaves a mean
    absolute value of [|ws|]. *)
Lemma mean_abs_normalised (d : list Q) (ws : Q) :
  let m := (Qsum (map Qabs d) / inject_Z (Z.of_nat (length d)))%Q in
  ~ (m == 0)%Q ->
  (Qsum (map Qabs (map (fun x => x * ws) (map (fun x => x / m) d)))
   / inject_Z (Z.of_nat (length d)) == Qabs ws)%Q.
Proof.
  intros m Hm.
  set (S := Qsum (map Qabs d)) in *.
  set (N := inject_Z (Z.of_nat (length d))) in *.
  assert (HN0 : (0 <= N)%Q).
  { unfold N. change 0%Q with (inject_Z 0). rewrite <- Zle_Qle. lia. }
  assert (HN : ~ (N == 0)%Q).
  { intros E. apply Hm. unfold m, Qdiv. rewrite E.
    assert (H0 : (/ 0 == 0)%Q) by reflexivity. rewrite H0. ring. }
  assert (HS : ~ (S == 0)%Q).
  { intros E. apply Hm. unfold m, Qdiv. rewrite E. ring. }
  assert (Hmpos : (0 <= m)%Q).
  { unfold m, Qdiv. apply Qmult_le_0_compat; [apply Qsum_abs_nonneg|].
    apply Qinv_le_0_compat. exact HN0. }
  rewrite !map_map.
  rewrite (Qsum_ext _ (fun x => Qabs x * (/ m * Qabs ws))%Q).
  - rewrite Qsum_scale. fold S. unfold m. field. split; assumption.
  - intros x. unfold Qdiv.
    rewrite !Qabs_Qmult, Qabs_Qinv, (Qabs_pos m Hmpos). ring.
Qed.

Lemma mean_abs_nonzero (d : list Q) (x : Q) :
  In x d -> ~ (x == 0)%Q ->
  ~ (Qsum (map Qabs d) / inject_Z (Z.of_nat (length d)) == 0)%Q.
Proof.
  intros Hin Hx.
  pose proof (Qsum_abs_pos d x Hin Hx) as HS.
  assert (HN : (0 < inject_Z (Z.of_nat (length d)))%Q).
  { change 0%Q with (inject_Z 0). rewrite <- Zlt_Qlt.
    destruct d; [destruct Hin|simpl; lia]. }
  intros E.
  assert (Hpos : (0 < Qsum (map Qabs d) / inject_Z (Z.of_nat (length d)))%Q).
  { unfold Qdiv. apply Qmult_lt_0_compat; [exact HS|].
    apply Qinv_lt_0_compat. exact HN. }
  lra.
Qed.

(** X9.  The grid a successful construction stores is normalised: unless
    every draw of [torch.rand] was exactly [1/2] (so that [2 * rand - 1]
    vanishes everywhere), the mean absolute value of the stored grid is
    [|warping_strength|]. *)
Theorem wanet_grid_mean_abs pb pn k ws tc u h self h' :
  WanetBackdoor_new pb pn k ws tc (inr u) h = (inr self, h') ->
  (exists i, i < numel [1; 2; Z.to_nat k; Z.to_nat k] /\ ~ (u i == 1#2)%Q) ->
  exists g,
    h' !! wn_control_grid self = Some g /\
    (tensor_mean (tmap Qabs g) == Qabs ws)%Q.
Proof.
  intros E (i & Hi & Hu).
  apply WanetBackdoor_new_returns in E as (u' & [= <-] & _ & -> & -> & _).
  exists (sampled_grid k ws u). split; [apply lookup_insert_eq|].
  unfold sampled_grid, control_grid_value, tensor_mean, tmap, random_array.
  cbn [data shape]. cbv zeta.
  set (d := map (fun x => (2 * x - 1)%Q)
                (map u (seq 0 (numel [1; 2; Z.to_nat k; Z.to_nat k])))).
  rewrite !length_map.
  replace (length (seq 0 (numel [1; 2; Z.to_nat k; Z.to_nat k])))
    with (length d) by (unfold d; rewrite !length_map; reflexivity).
  apply mean_abs_normalised.
  apply (mean_abs_nonzero d (2 * u i - 1)%Q).
  - unfold d. apply (in_map (fun x => (2 * x - 1)%Q) _ (u i)).
    apply (in_map u _ i), in_seq. lia.
  - intros E. apply Hu. lra.
Qed.

Lemma wanet_grid_mean_abs_witness :
  exists g,
    demo_grid_heap !! wn_control_grid demo_wanet = Some g /\
    (tensor_mean (tmap Qabs g) == Qabs (1#2))%Q.
Proof.
  apply (wanet_grid_mean_abs (1#2) (1#4) 2 (1#2) 3 demo_draws ∅
           demo_wanet demo_grid_heap).
  - vm_compute. reflexivity.
  - exists 0. split; [vm_compute; lia|]. vm_compute. discriminate.
Defined.

(** ** WanetBackdoor: what a call does to the store *)

(** X10.  A call never writes to an object that exists: whatever the
    sample, the draws and the library functions, and whether the call
    returns or raises, every reference that was live reads the same array
    afterwards (the caller's image included).  A call that raises leaves
    the store exactly as it was; a call that returns has added exactly one
    object, the array it returns, at a reference that was not in use. *)
Theorem wanet_call_only_allocates `{TorchFunctional} self sample r u h :
  (forall l a, h !! l = Some a ->
     snd (WanetBackdoor_call self sample r u h) !! l = Some a) /\
  (forall e h', WanetBackdoor_call self sample r u h = (inl e, h') -> h' = h) /\
  (forall out t h',
     WanetBackdoor_call self sample r u h = (inr (out, t), h') ->
     h !! out = None /\ exists img', h' = <[out := img']> h).
Proof.
  split; [|split].
  - apply frame_WanetBackdoor_call.
  - intros e h'. apply raises_clean_WanetBackdoor_call.
  - intros out t h' E. destruct sample as [img_ref target].
    apply WanetBackdoor_call_inv in E
      as (img & bs & cs & py & px & _ & _ & -> & [(_ & _ & ->)|(_ & Htrig)]).
    + split; [apply alloc_fresh|]. eexists. reflexivity.
    + destruct Htrig as (grid & wfld & w2 & w3 & img' & _ & _ & _ & _ & _ & _ & ->).
      split; [apply alloc_fresh|]. eexists. reflexivity.
Qed.

(** X11.  The call unpacks four sizes from the image: an image that does
    not have exactly four axes raises [ValueError], in either branch and
    for every draw, and the store is unchanged. *)
Theorem wanet_call_needs_four_axes `{TorchFunctional} self img_ref target r u h img :
  h !! img_ref = Some img ->
  length (shape img) <> 4 ->
  WanetBackdoor_call self (img_ref, target) r u h = (inl ValueError, h).
Proof.
  intros El Hs. unfold WanetBackdoor_call. rewrite (bind_load _ _ _ _ El).
  destruct (shape img) as [|bs [|cs [|py [|px [|? ?]]]]]; try reflexivity.
  simpl in Hs. lia.
Qed.

Lemma wanet_call_needs_four_axes_witness :
  @WanetBackdoor_call nearest_torch demo_wanet (1, 9%Z) (1#2) demo_draws
    (<[1 := demo_rgb]> demo_grid_heap)
  = (inl ValueError, <[1 := demo_rgb]> demo_grid_heap).
Proof.
  apply (@wanet_call_needs_four_axes nearest_torch demo_wanet 1 9%Z (1#2)
           demo_draws (<[1 := demo_rgb]> demo_grid_heap) demo_rgb).
  - reflexivity.
  - vm_compute. lia.
Defined.

(** A float32 draw at or below an exact threshold is at or below it in
    the source's comparison, where the threshold is rounded to float64
    and then to float32: a float32 is a float64, and rounding is
    monotone. *)
Lemma float32_draw_below_sum (r s : Q) :
  (float32 r == r)%Q -> (r <= s)%Q -> (float32 r <= float32 (float64 s))%Q.
Proof.
  intros Hr H. apply float32_mono.
  rewrite <- (float32_is_float64 r Hr). apply float64_mono. exact H.
Qed.

(** X12.  In adversary mode the draws play no part: two calls on the same
    sample in the same store, each with a draw [r] of [torch.rand] (a
    float32 value) such that [p_noise <= r <= p_backdoor + p_noise], have
    the same outcome (the same image values, label and store) whatever [r]
    and whatever the values of [torch.rand_like] would have been.  Every
    poisoned copy of an image carries the same warp. *)
Theorem wanet_adversary_ignores_draws `{TorchFunctional} self sample r1 r2 u1 u2 h :
  (float32 r1 == r1)%Q -> (float32 r2 == r2)%Q ->
  (wn_p_noise self <= r1 <= wn_p_backdoor self + wn_p_noise self)%Q ->
  (wn_p_noise self <= r2 <= wn_p_backdoor self + wn_p_noise self)%Q ->
  WanetBackdoor_call self sample r1 u1 h = WanetBackdoor_call self sample r2 u2 h.
Proof.
  intros F1 F2 [Hn1 Ht1] [Hn2 Ht2].
  unfold WanetBackdoor_call, wanet_displacement, Qlt_bool.
  destruct sample as [img_ref target].
  rewrite (Qle_bool_true _ _ (float32_draw_below_sum _ _ F1 Ht1)).
  rewrite (Qle_bool_true _ _ (float32_draw_below_sum _ _ F2 Ht2)).
  rewrite (Qle_bool_true _ _ (float32_mono _ _ Hn1)).
  rewrite (Qle_bool_true _ _ (float32_mono _ _ Hn2)).
  reflexivity.
Qed.

Lemma wanet_adversary_ignores_draws_witness :
  @WanetBackdoor_call nearest_torch demo_wanet (1, 9%Z) (1#2) demo_draws demo_heap
  = @WanetBackdoor_call nearest_torch demo_wanet (1, 9%Z) (3#4) (fun _ => 0%Q) demo_heap.
Proof.
  apply (@wanet_adversary_ignores_draws nearest_torch demo_wanet (1, 9%Z)
           (1#2) (3#4) demo_draws (fun _ => 0%Q) demo_heap).
  - vm_compute. reflexivity.
  - vm_compute. reflexivity.
  - split; vm_compute; discriminate.
  - split; vm_compute; discriminate.
Defined.

(** ** WanetBackdoor: the rescaled field stays inside the image *)

Lemma rescale_within (l : list Q) (lo hi : Q) :
  Qmin_list l = Some lo -> Qmax_list l = Some hi -> (lo < hi)%Q ->
  Forall (fun x => (-1 <= x <= 1)%Q)
         (map (fun x => 2 * (x - lo) / (hi - lo) - 1)%Q l).
Proof.
  intros Hlo Hhi Hd. apply Forall_map, Forall_forall. intros x Hx.
  apply list_elem_of_In in Hx. cbn beta.
  pose proof (Qmin_list_le _ _ Hlo x Hx) as H1.
  pose proof (Qmax_list_ge _ _ Hhi x Hx) as H2.
  pose proof (rescale_mono lo hi lo x Hd H1) as M1.
  pose proof (rescale_mono lo hi x hi Hd H2) as M2.
  rewrite rescale_lo in M1. rewrite (rescale_hi lo hi Hd) in M2.
  split; assumption.
Qed.

(** X13.  After the min-max rescale of a field of shape [(1, py, px, 2)],
    every sampling coordinate lies inside the image: for each of the two
    coordinates that was not constant over the field, all its values in
    the rescaled field are between [-1] and [1]. *)
Theorem wanet_normalize_within_bounds wfld py px h :
  shape wfld = [1; py; px; 2] -> wf wfld -> 0 < py -> 0 < px ->
  exists w_min w_max out,
    min0 wfld = inr w_min /\ max0 wfld = inr w_max /\
    wanet_normalize wfld py px h = (inr out, h) /\
    ((fst w_min < fst w_max)%Q ->
     Forall (fun x => (-1 <= x <= 1)%Q) (coord_x out)) /\
    ((snd w_min < snd w_max)%Q ->
     Forall (fun x => (-1 <= x <= 1)%Q) (coord_y out)).
Proof.
  intros Hs Hwf Hpy Hpx.
  assert (Hlen : length (data wfld) = 2 * (py * px)).
  { unfold wf in Hwf. rewrite Hwf, Hs. apply numel_field. }
  assert (Hpos : 0 < py * px) by nia.
  destruct (min0_returns wfld _ Hlen Hpos) as [w_min Emin].
  destruct (max0_returns wfld _ Hlen Hpos) as [w_max Emax].
  destruct (wanet_normalize_returns wfld py px h Hs Hwf Hpy Hpx)
    as (out & E & _ & _).
  exists w_min, w_max, out. repeat (split; [assumption|]).
  pose proof (wanet_normalize_data _ _ _ _ _ _ _ _ Emin Emax E) as Hdata.
  destruct (min0_inv _ _ Emin) as [Hminx Hminy].
  destruct (max0_inv _ _ Emax) as [Hmaxx Hmaxy].
  split; intros Hd.
  - unfold coord_x. rewrite Hdata, map_map. cbn [fst].
    rewrite <- (map_map fst (fun x => 2 * (x - w_min.1) / (w_max.1 - w_min.1) - 1)%Q).
    apply rescale_within; assumption.
  - unfold coord_y. rewrite Hdata, map_map. cbn [snd].
    rewrite <- (map_map snd (fun x => 2 * (x - w_min.2) / (w_max.2 - w_min.2) - 1)%Q).
    apply rescale_within; assumption.
Qed.

Lemma wanet_normalize_within_bounds_witness :
  exists out,
    wanet_normalize demo_field 1 2 ∅ = (inr out, ∅) /\
    Forall (fun x => (-1 <= x <= 1)%Q) (coord_x out) /\
    Forall (fun x => (-1 <= x <= 1)%Q) (coord_y out).
Proof.
  destruct (wanet_normalize_within_bounds demo_field 1 2 ∅)
    as (w_min & w_max & out & Emin & Emax & E & Hx & Hy).
  - reflexivity.
  - reflexivity.
  - lia.
  - lia.
  - vm_compute in Emin. vm_compute in Emax.
    injection Emin as <-. injection Emax as <-.
    exists out. split; [exact E|]. split.
    + apply Hx. reflexivity.
    + apply Hy. reflexivity.
Defined.

(** ** WanetBackdoor: the identity field and the relative field, entry by entry *)

Lemma lookup_flat_map_const {A B : Type} (f : A -> list B) (l : list A)
    (k i j : nat) :
  (forall x, length (f x) = k) -> j < k ->
  flat_map f l !! (i * k + j) = l !! i ≫= fun x => f x !! j.
Proof.
  intros Hf Hj. revert i. induction l as [|x l IH]; intros i; [reflexivity|].
  simpl flat_map. destruct i as [|i].
  - simpl. rewrite lookup_app_l by (rewrite Hf; exact Hj). reflexivity.
  - rewrite lookup_app_r by (rewrite Hf; lia).
    rewrite Hf. replace (S i * k + j - k) with (i * k + j) by lia.
    apply IH.
Qed.

Lemma unview2_app (r1 r2 : list (Q * Q)) :
  unview2 (r1 ++ r2) = unview2 r1 ++ unview2 r2.
Proof. apply flat_map_app. Qed.

Lemma row_pairs (y : Q) (xs : list Q) :
  flat_map (fun x => [x; y]) xs = unview2 (map (fun x => (x, y)) xs).
Proof.
  induction xs as [|x xs IH]; [reflexivity|]. simpl. rewrite IH. reflexivity.
Qed.

Lemma mesh_pairs (xs ys : list Q) :
  flat_map (fun y => flat_map (fun x => [x; y]) xs) ys
  = unview2 (flat_map (fun y => map (fun x => (x, y)) xs) ys).
Proof.
  induction ys as [|y ys IH]; [reflexivity|].
  simpl flat_map. rewrite unview2_app, IH, row_pairs. reflexivity.
Qed.

Lemma identity_field_rows (py px : nat) :
  data (identity_field py px)
  = unview2 (flat_map (fun y => map (fun x => (x, y)) (linspace (-1) 1 px))
                      (linspace (-1) 1 py)).
Proof. apply mesh_pairs. Qed.

Lemma lookup_linspace (a b : Q) (n k : nat) :
  k < n ->
  linspace a b n !! k
  = Some (a + inject_Z (Z.of_nat k) * ((b - a) / inject_Z (Z.of_nat n - 1)))%Q.
Proof.
  intros Hk. unfold linspace.
  rewrite list_lookup_fmap, lookup_seq_lt by exact Hk. reflexivity.
Qed.

(** The points of [linspace(-1, 1, n)] lie in [[-1, 1]]. *)
Lemma linspace_unit_bounds (n k : nat) :
  k < n ->
  (-1 <= -1 + inject_Z (Z.of_nat k) * ((1 - -1) / inject_Z (Z.of_nat n - 1)) <= 1)%Q.
Proof.
  intros Hk.
  set (K := inject_Z (Z.of_nat k)). set (N := inject_Z (Z.of_nat n - 1)).
  assert (HK : (0 <= K)%Q).
  { unfold K. change 0%Q with (inject_Z 0). rewrite <- Zle_Qle. lia. }
  assert (HKN : (K <= N)%Q).
  { unfold K, N. rewrite <- Zle_Qle. lia. }
  destruct (Qlt_le_dec 0 N) as [HN|HN].
  - assert (Hc : (0 <= (1 - -1) / N)%Q).
    { unfold Qdiv. apply Qmult_le_0_compat; [lra|].
      apply Qlt_le_weak, Qinv_lt_0_compat, HN. }
    pose proof (Qmult_le_0_compat _ _ HK Hc) as H0.
    pose proof (Qmult_le_compat_r _ _ _ HKN Hc) as H1.
    assert (H2 : (N * ((1 - -1) / N) == 2)%Q) by (field; lra).
    rewrite H2 in H1. split; lra.
  - assert (HK0 : (K == 0)%Q) by lra. rewrite HK0. split; lra.
Qed.

Lemma identity_field_lookup py px i j :
  i < py -> j < px ->
  view2 (data (identity_field py px)) !! (i * px + j)
  = Some ((-1 + inject_Z (Z.of_nat j) * ((1 - -1) / inject_Z (Z.of_nat px - 1)))%Q,
          (-1 + inject_Z (Z.of_nat i) * ((1 - -1) / inject_Z (Z.of_nat py - 1)))%Q).
Proof.
  intros Hi Hj.
  rewrite identity_field_rows, view2_unview2.
  rewrite (lookup_flat_map_const _ _ px).
  - rewrite (lookup_linspace _ _ _ _ Hi). cbn.
    rewrite list_lookup_fmap, (lookup_linspace _ _ _ _ Hj). reflexivity.
  - intros y. rewrite length_map. apply length_linspace.
  - exact Hj.
Qed.

(** X14.  The identity sampling grid: entry [[0, i, j]] is the pair
    [(x_j, y_i)], its first component the [j]-th point of
    [linspace(-1, 1, px)] (it varies along the width) and its second the
    [i]-th point of [linspace(-1, 1, py)]; both lie in [[-1, 1]]. *)
Theorem identity_field_entries py px i j :
  i < py -> j < px ->
  exists x y,
    view2 (data (identity_field py px)) !! (i * px + j) = Some (x, y) /\
    linspace (-1) 1 px !! j = Some x /\
    linspace (-1) 1 py !! i = Some y /\
    (-1 <= x <= 1)%Q /\ (-1 <= y <= 1)%Q.
Proof.
  intros Hi Hj. eexists _, _.
  split; [apply identity_field_lookup; assumption|].
  split; [apply lookup_linspace, Hj|].
  split; [apply lookup_linspace, Hi|].
  split; apply linspace_unit_bounds; assumption.
Qed.

Lemma identity_field_entries_witness :
  exists x y,
    view2 (data (identity_field 2 3)) !! (1 * 3 + 2) = Some (x, y) /\
    linspace (-1) 1 3 !! 2 = Some x /\
    linspace (-1) 1 2 !! 1 = Some y /\
    (-1 <= x <= 1)%Q /\ (-1 <= y <= 1)%Q.
Proof. apply (identity_field_entries 2 3 1 2); lia. Defined.

Lemma view2_zip_with (f : Q -> Q -> Q) (l1 l2 : list Q) :
  view2 (zip_with f l1 l2)
  = zip_with (fun p q => (f (fst p) (fst q), f (snd p) (snd q)))
             (view2 l1) (view2 l2).
Proof.
  revert l2. induction l1 as [l1 IH] using (induction_ltof1 _ (@length Q)).
  unfold ltof in IH. intros l2.
  destruct l1 as [|x1 [|y1 l1]]; [reflexivity| |].
  - destruct l2 as [|x2 [|y2 l2]]; reflexivity.
  - destruct l2 as [|x2 [|y2 l2]]; [reflexivity|reflexivity|].
    simpl. f_equal. apply IH. simpl. lia.
Qed.

(** X15.  The field handed to the rescale, entry by entry: where the
    displacement field holds [(dx, dy)] at pixel [[i, j]], the relative
    field holds [(x_j + dx / py, y_i + dy / px)], with [(x_j, y_i)] the
    entry of the identity grid.  The first component is divided by the
    height [py] and the second by the width [px], as the source divides by
    the tensor [[py, px]]. *)
Theorem wanet_relative_entries wfld py px h i j dx dy :
  shape wfld = [1; py; px; 2] ->
  i < py -> j < px ->
  view2 (data wfld) !! (i * px + j) = Some (dx, dy) ->
  exists out x y,
    wanet_relative wfld py px h = (inr out, h) /\
    linspace (-1) 1 px !! j = Some x /\
    linspace (-1) 1 py !! i = Some y /\
    view2 (data out) !! (i * px + j)
    = Some ((x + dx / inject_Z (Z.of_nat py))%Q,
            (y + dy / inject_Z (Z.of_nat px))%Q).
Proof.
  intros Hs Hi Hj Ed.
  pose proof (identity_field_lookup py px i j Hi Hj) as Eid.
  eexists _, _, _.
  split; [|split; [apply lookup_linspace, Hj|split; [apply lookup_linspace, Hi|]]].
  - unfold wanet_relative. cbn [shape broadcast2 identity_field].
    rewrite Hs, shape_eqb_refl, bind_assert_true. reflexivity.
  - cbn [data ndarray_add broadcast2 fst snd].
    rewrite view2_zip_with, view2_unview2, lookup_zip_with.
    fold (identity_field py px). rewrite Eid. cbn.
    rewrite list_lookup_fmap, Ed. reflexivity.
Qed.

Lemma wanet_relative_entries_witness :
  exists out x y,
    wanet_relative demo_field 1 2 ∅ = (inr out, ∅) /\
    linspace (-1) 1 2 !! 1 = Some x /\
    linspace (-1) 1 1 !! 0 = Some y /\
    view2 (data out) !! (0 * 2 + 1)
    = Some ((x + 2 / inject_Z (Z.of_nat 1))%Q, (y + 5 / inject_Z (Z.of_nat 2))%Q).
Proof.
  apply (wanet_relative_entries demo_field 1 2 ∅ 0 1 2 5).
  - reflexivity.
  - lia.
  - lia.
  - reflexivity.
Defined.

Lemma channel_pairs (a b : nat -> Q) (rs : list nat) :
  flat_map (fun r => [a r; b r]) rs = unview2 (map (fun r => (a r, b r)) rs).
Proof.
  induction rs as [|r rs IH]; [reflexivity|]. simpl. rewrite <- IH. reflexivity.
Qed.

(** Moving the channel axis of a two-channel tensor last pairs, at every
    pixel, the entry of channel 0 with the entry of channel 1. *)
Lemma movedim_two_channels up py px base :
  shape up = [1; 2; py; px] -> movedim_1_last up = inr base ->
  view2 (data base)
  = map (fun r => (nth r (data up) 0%Q, nth (py * px + r) (data up) 0%Q))
        (seq 0 (py * px)).
Proof.
  intros Hs. unfold movedim_1_last. rewrite Hs. intros [= <-]. cbn [data].
  rewrite app_nil_r.
  replace (py * (px * 1)) with (py * px) by lia.
  rewrite channel_pairs, view2_unview2.
  apply map_ext. intros r. f_equal. f_equal. lia.
Qed.

(** X16.  In adversary mode the displacement at pixel [[i, j]] is read off
    the upsampled control grid [up = F.interpolate(control_grid, (py, px))]:
    its first component is [up[0, 0, i, j]] and its second [up[0, 1, i, j]]
    (channel 0 of the grid displaces along the first sampling coordinate,
    channel 1 along the second), and the label is [target_class]. *)
Theorem wanet_adversary_displacement_entries `{TorchFunctional}
    self grid py px target r u h wfld t h' up i j :
  (wn_p_noise self <= r)%Q ->
  F_interpolate grid py px = inr up ->
  wanet_displacement self grid py px target r u h = (inr (wfld, t), h') ->
  i < py -> j < px ->
  t = wn_target_class self /\
  shape up = [1; 2; py; px] /\
  view2 (data wfld) !! (i * px + j)
  = Some (nth (i * px + j) (data up) 0%Q,
          nth (py * px + (i * px + j)) (data up) 0%Q).
Proof.
  intros Hr Eup E Hi Hj.
  apply wanet_displacement_inv in E as (up' & base & Eup' & Ebase & Sbase & Ewt).
  assert (up' = up) by congruence. subst up'.
  unfold Qlt_bool in Ewt.
  rewrite (Qle_bool_true _ _ (float32_mono _ _ Hr)) in Ewt. cbn in Ewt.
  injection Ewt as -> ->.
  pose proof (movedim_1_last_shape_inv _ _ _ _ Ebase Sbase) as Sup.
  split; [reflexivity|]. split; [exact Sup|].
  rewrite (movedim_two_channels up py px base Sup Ebase).
  rewrite list_lookup_fmap, lookup_seq_lt by nia. reflexivity.
Qed.

Lemma wanet_adversary_displacement_entries_witness :
  exists up wfld,
    nearest_interpolate (sampled_grid 2 (1#2) demo_draws) 2 3 = inr up /\
    3%Z = wn_target_class demo_wanet /\
    shape up = [1; 2; 2; 3] /\
    view2 (data wfld) !! (1 * 3 + 2)
    = Some (nth (1 * 3 + 2) (data up) 0%Q, nth (2 * 3 + (1 * 3 + 2)) (data up) 0%Q).
Proof.
  destruct (nearest_interpolate (sampled_grid 2 (1#2) demo_draws) 2 3)
    as [e|up] eqn:Eup; [vm_compute in Eup; discriminate|].
  destruct (@wanet_displacement nearest_torch demo_wanet
              (sampled_grid 2 (1#2) demo_draws) 2 3 9%Z (1#2) demo_draws ∅)
    as [[e|[wfld t]] h'] eqn:E; [vm_compute in E; discriminate|].
  exists up, wfld. split; [reflexivity|].
  assert (Ht : t = 3%Z) by (vm_compute in E; congruence). subst t.
  apply (@wanet_adversary_displacement_entries nearest_torch demo_wanet
           (sampled_grid 2 (1#2) demo_draws) 2 3 9%Z (1#2) demo_draws ∅
           wfld 3%Z h' up 1 2).
  - vm_compute. discriminate.
  - exact Eup.
  - exact E.
  - lia.
  - lia.
Defined.
